(** * Numerical core of the dynamical-systems visualisation scenes

    A shallow embedding of the simulation and event-detection helpers of
    [manim_scenes.py]: the Hénon map, its fixed points, Jacobian
    eigenvalues and stability label, the transient-discarding iteration,
    and the three Poincaré-section crossing detectors (Van der Pol,
    Lorenz, Rössler) with the Van der Pol return map.

    The Python code computes on floats.  The definitions below are written
    once, over an interface [Arith] of the arithmetic the code uses, and
    are read at two instances: [R] (exact arithmetic, for the properties
    that are statements of real analysis) and [float] (IEEE 754 binary64,
    evaluated by the kernel, for what the code returns on a concrete
    input).  Properties that only depend on the control flow are proved
    for every instance.

    Arithmetic is total, as IEEE 754 and numpy have it (an overflow gives
    an infinity), with one exception: on Python floats [x ** 2] raises
    OverflowError where the square overflows.  [henon_map] and
    [henon_fixed_points] are run on Python floats, so their squares go
    through an interface [PyPow] whose result is an option, [None]
    standing for the exception.

    Two more parts of the Python semantics are made explicit.  A read [l[i]]
    of an array is a lookup [l !! i] in the option monad, [None] standing
    for IndexError.  The numerical integration ([scipy]'s [solve_ivp]) is
    not embedded: the detectors take the sampled arrays as arguments, as
    [compute_poincare_crossings] and [compute_rossler_poincare] do in the
    source. *)

From Stdlib Require Import Floats.PrimFloat.
From Stdlib Require Numbers.Cyclic.Int63.Uint63.
From Stdlib Require Import ZArith QArith Reals Lra Lia.
From stdpp Require Import base option list strings sorting.


(** ** The arithmetic interface *)

(** [lit q] is the value of the decimal literal [q]; [fsqrt] is
    [np.sqrt]; [flt] and [fle] are [<] and [<=] ([>] and [>=] are the
    same tests with the operands exchanged). *)
Class Arith (F : Type) : Type := {
  lit : Q → F;
  fadd : F → F → F;
  fsub : F → F → F;
  fmul : F → F → F;
  fdiv : F → F → F;
  fneg : F → F;
  fabs : F → F;
  fsqrt : F → F;
  flt : F → F → bool;
  fle : F → F → bool
}.

Declare Scope py_scope.
Delimit Scope py_scope with py.
Notation "x + y" := (fadd x y) : py_scope.
Notation "x - y" := (fsub x y) : py_scope.
Notation "x * y" := (fmul x y) : py_scope.
Notation "x / y" := (fdiv x y) : py_scope.
Notation "- x" := (fneg x) : py_scope.
Notation "x <? y" := (flt x y) : py_scope.
Notation "x <=? y" := (fle x y) : py_scope.
Notation "x >? y" := (flt y x) : py_scope.
Notation "x >=? y" := (fle y x) : py_scope.

(** [x ** 2] on numpy floats, which never raises: an overflowing square
    is [inf].  The vector fields receive numpy states from the
    integrator, and [henon_jacobian_eigenvalues] receives the numpy
    abscissas that [henon_fixed_points] returns.  In binary64 numpy
    takes the value from the platform's [pow], which can differ from the
    rounded product in the last place; the properties of the functions
    that use [pow2] are statements of exact arithmetic. *)
Definition pow2 {F : Type} {A : Arith F} (x : F) : F := fmul x x.

(** [x ** 2] on Python floats: the value, or [None] where Python raises
    OverflowError.  [henon_map] and [henon_fixed_points] are run on
    Python floats (the scene passes [a, b = 1.4, 0.3] and the seed
    defaults to [0.0]).  Whatever the platform's [pow] returns, the
    arithmetic the program runs on is an instance of this interface
    together with [Arith]. *)
Class PyPow (F : Type) : Type := {
  py_pow2 : F → option F
}.

(** *** Exact arithmetic *)

Definition R_ltb (x y : R) : bool := if Rlt_dec x y then true else false.
Definition R_leb (x y : R) : bool := if Rle_dec x y then true else false.

#[export] Instance exact : Arith R := {|
  lit := Q2R;
  fadd := Rplus; fsub := Rminus; fmul := Rmult; fdiv := Rdiv;
  fneg := Ropp; fabs := Rabs; fsqrt := R_sqrt.sqrt;
  flt := R_ltb; fle := R_leb
|}.

#[export] Instance exact_pow : PyPow R := {|
  py_pow2 x := Some (x * x)%R
|}.

(** *** IEEE 754 binary64 *)

Definition float_of_Z (z : Z) : float :=
  if (z <? 0)%Z then PrimFloat.opp (PrimFloat.of_uint63 (Uint63.of_Z (- z)))
  else PrimFloat.of_uint63 (Uint63.of_Z z).

(** Numerator and denominator of every literal of the source are below
    2^53, so both conversions are exact and the division rounds the
    literal's value to the nearest float, as Python's parser does. *)
Definition float_of_Q (q : Q) : float :=
  PrimFloat.div (float_of_Z (Qnum q)) (float_of_Z (Zpos (Qden q))).

#[export] Instance binary64 : Arith float := {|
  lit := float_of_Q;
  fadd := PrimFloat.add; fsub := PrimFloat.sub; fmul := PrimFloat.mul;
  fdiv := PrimFloat.div;
  fneg := PrimFloat.opp; fabs := PrimFloat.abs; fsqrt := PrimFloat.sqrt;
  flt := PrimFloat.ltb; fle := PrimFloat.leb
|}.

(** CPython's [float_pow] at the exponent 2: an infinite or NaN base
    gives [inf] or NaN, and a finite base whose square overflows gives
    OverflowError.  The square itself is taken correctly rounded; the
    platform's [pow] agrees with that wherever the square is a float (0,
    1, powers of two, small integers), and may differ in the last place
    elsewhere.  The instance is used for evaluations on concrete inputs
    only. *)
Definition float_pow2 (x : float) : option float :=
  let r := PrimFloat.mul x x in
  if PrimFloat.is_infinity r && negb (PrimFloat.is_infinity x) then None
  else Some r.

#[export] Instance binary64_pow : PyPow float := {|
  py_pow2 := float_pow2
|}.

(** ** The Hénon map *)

Section Henon.
Context {F : Type} {A : Arith F} {P : PyPow F}.
Local Open Scope py_scope.

(** [henon_map(x, y, a, b)]; [None] is the OverflowError of [x**2]. *)
Definition henon_map (x y a b : F) : option (F * F) :=
  x_sq ← py_pow2 x;
  let x_new := lit 1 - a * x_sq + y in
  let y_new := b * x in
  Some (x_new, y_new).

(** The local [discriminant] of [henon_fixed_points]; [None] is the
    OverflowError of [(1 - b)**2]. *)
Definition henon_discriminant (a b : F) : option F :=
  sq ← py_pow2 (lit 1 - b);
  Some (sq + lit 4 * a).

(** [henon_fixed_points(a, b)] *)
Definition henon_fixed_points (a b : F) : option (list (F * F)) :=
  discriminant ← henon_discriminant a b;
  if discriminant <? lit 0 then Some []
  else
    let sqrt_disc := fsqrt discriminant in
    let x1 := (- (lit 1 - b) + sqrt_disc) / (lit 2 * a) in
    let x2 := (- (lit 1 - b) - sqrt_disc) / (lit 2 * a) in
    let y1 := b * x1 in
    let y2 := b * x2 in
    Some [(x1, y1); (x2, y2)].

(** The two shapes [henon_jacobian_eigenvalues] returns: a numpy float,
    or a Python [complex] built by [complex(real, imag)]. *)
Inductive eigenvalue : Type :=
| real_eig (v : F)
| complex_eig (re im : F).

(** [henon_jacobian_eigenvalues(x, a, b)] *)
Definition henon_jacobian_eigenvalues (x a b : F) : eigenvalue * eigenvalue :=
  let trace := lit (-2) * a * x in
  let det := - b in
  let disc := pow2 trace - lit 4 * det in
  if disc >=? lit 0 then
    let lambda1 := (trace + fsqrt disc) / lit 2 in
    let lambda2 := (trace - fsqrt disc) / lit 2 in
    (real_eig lambda1, real_eig lambda2)
  else
    let real := trace / lit 2 in
    let imag := fsqrt (- disc) / lit 2 in
    (complex_eig real imag, complex_eig real (- imag)).

(** [isinstance(e, complex)] *)
Definition is_complex (e : eigenvalue) : bool :=
  match e with real_eig _ => false | complex_eig _ _ => true end.

(** [abs(e)]: the absolute value of a float, the modulus of a complex
    (written with a square root; Python computes it with [hypot]).  The
    label below tests [isinstance] first, so on a pair returned by
    [henon_jacobian_eigenvalues] only the first case is evaluated. *)
Definition eig_abs (e : eigenvalue) : F :=
  match e with
  | real_eig v => fabs v
  | complex_eig re im => fsqrt (re * re + im * im)
  end.

(** The stability label chosen in [HenonAttractorScene.construct]. *)
Definition stab_str (eig1 eig2 : eigenvalue) : string :=
  if is_complex eig1 then "spiral"
  else if (eig_abs eig1 >? lit 1) || (eig_abs eig2 >? lit 1) then "saddle"
  else "stable".

(** One pass of the two loops of [iterate_henon]: [n] applications of
    the map to the running state; an exception raised by the map ends
    the loop and the call. *)
Fixpoint transient (a b : F) (n : nat) (x y : F) : option (F * F) :=
  match n with
  | O => Some (x, y)
  | S n' => p ← henon_map x y a b; transient a b n' p.1 p.2
  end.

Fixpoint collect (a b : F) (n : nat) (x y : F) (xs ys : list F)
  : option (list F * list F) :=
  match n with
  | O => Some (xs, ys)
  | S n' =>
      p ← henon_map x y a b;
      collect a b n' p.1 p.2 (xs ++ [p.1]) (ys ++ [p.2])
  end.

(** [iterate_henon(a, b, x0, y0, n_iter, n_transient)] *)
Definition iterate_henon (a b x0 y0 : F) (n_iter n_transient : nat)
  : option (list F * list F) :=
  p ← transient a b n_transient x0 y0;
  collect a b n_iter p.1 p.2 [p.1] [p.2].

End Henon.

(** ** Loops over sample arrays *)

(** [range(lo, hi)] and [range(n)]; Python's [range] is empty when its
    bound is not above its start, also for a negative [n]. *)
Definition range (lo hi : nat) : list nat := seq lo (hi - lo).
Definition range0 (n : Z) : list nat := seq 0 (Z.to_nat n).

(** A [for] loop over indices whose body reads arrays: each read [l !! i]
    is [None] where Python raises IndexError, and the error ends the
    loop. *)
Fixpoint for_loop {S : Type} (body : S → nat → option S) (idx : list nat) (s : S)
  : option S :=
  match idx with
  | [] => Some s
  | i :: idx' => s' ← body s i; for_loop body idx' s'
  end.

(** ** Poincaré-section crossing detectors *)

Section Detectors.
Context {F : Type} {A : Arith F}.
Local Open Scope py_scope.

(** *** Van der Pol: section y = 0, crossed upward, x > 0

    [compute_vdp_poincare_map] first calls [integrate_van_der_pol]
    (scipy's [solve_ivp] and its dense output); the sample arrays
    [xs], [ys] it returns are the arguments here. *)

(** [t_frac = -ys[i-1] / (ys[i] - ys[i-1])] *)
Definition vdp_t_frac (y_prev y_i : F) : F := - y_prev / (y_i - y_prev).

(** The body of the loop [for i in range(1, len(ys))]; [xs[i]] is read
    only when the two tests on [ys] have passed, as [and] evaluates. *)
Definition vdp_body (xs ys : list F) (crossings : list F) (i : nat)
  : option (list F) :=
  y_prev ← ys !! (i - 1)%nat;
  y_i ← ys !! i;
  if (y_prev <? lit 0) && (y_i >=? lit 0) then
    x_i ← xs !! i;
    if x_i >? lit 0 then
      x_cross ←
        (if fabs (y_i - y_prev) >? lit 1e-10 then
           x_prev ← xs !! (i - 1)%nat;
           let t_frac := vdp_t_frac y_prev y_i in
           Some (x_prev + t_frac * (x_i - x_prev))
         else Some x_i);
      Some (crossings ++ [x_cross])
    else Some crossings
  else Some crossings.

(** The loop that fills [crossings]. *)
Definition vdp_crossings (xs ys : list F) : option (list F) :=
  for_loop (vdp_body xs ys) (range 1 (length ys)) [].

(** [[(crossings[i], crossings[i+1]) for i in range(len(crossings)-1)]] *)
Definition return_map (crossings : list F) : option (list (F * F)) :=
  mapM (λ i, c ← crossings !! i; c' ← crossings !! (i + 1)%nat; Some (c, c'))
       (range0 (Z.of_nat (length crossings) - 1)).

(** [compute_vdp_poincare_map], from the samples on: it returns
    [crossings, return_map]. *)
Definition compute_vdp_poincare_map (xs ys : list F)
  : option (list F * list (F * F)) :=
  crossings ← vdp_crossings xs ys;
  pairs ← return_map crossings;
  Some (crossings, pairs).

(** *** Lorenz: plane z = z_section, crossed from below *)

(** [t_frac = (z_section - zs[i-1]) / (zs[i] - zs[i-1])], unguarded. *)
Definition lorenz_t_frac (z_prev z_section z_i : F) : F :=
  (z_section - z_prev) / (z_i - z_prev).

(** The body of the loop [for i in range(1, len(zs))]. *)
Definition poincare_body (xs ys zs : list F) (z_section : F)
    (crossings : list (F * F * F)) (i : nat) : option (list (F * F * F)) :=
  z_prev ← zs !! (i - 1)%nat;
  z_i ← zs !! i;
  if (z_prev <? z_section) && (z_section <=? z_i) then
    let t_frac := lorenz_t_frac z_prev z_section z_i in
    x_prev ← xs !! (i - 1)%nat;
    x_i ← xs !! i;
    let x_cross := x_prev + t_frac * (x_i - x_prev) in
    y_prev ← ys !! (i - 1)%nat;
    y_i ← ys !! i;
    let y_cross := y_prev + t_frac * (y_i - y_prev) in
    Some (crossings ++ [(x_cross, y_cross, z_section)])
  else Some crossings.

(** [compute_poincare_crossings(xs, ys, zs, z_section)] *)
Definition compute_poincare_crossings (xs ys zs : list F) (z_section : F)
  : option (list (F * F * F)) :=
  for_loop (poincare_body xs ys zs z_section) (range 1 (length zs)) [].

(** *** Rössler: a coordinate plane, crossed in a chosen direction *)

(** The choice of [values] by [section_axis]. *)
Definition rossler_values (xs ys zs : list F) (section_axis : string) : list F :=
  if String.eqb section_axis "y" then ys
  else if String.eqb section_axis "x" then xs
  else zs.

(** The flag [crossing], by [direction]. *)
Definition rossler_crossing (direction : string) (v_prev section_value v_i : F)
  : bool :=
  if String.eqb direction "positive"
  then (v_prev <? section_value) && (section_value <=? v_i)
  else (v_prev >? section_value) && (section_value >=? v_i).

(** [t_frac], with its guard on the denominator. *)
Definition rossler_t_frac (v_prev section_value v_i : F) : F :=
  if fabs (v_i - v_prev) >? lit 1e-10
  then (section_value - v_prev) / (v_i - v_prev)
  else lit 0.5.

(** The body of the loop [for i in range(1, len(values))]. *)
Definition rossler_body (xs ys zs values : list F) (section_value : F)
    (direction : string) (crossings : list (F * F * F)) (i : nat)
  : option (list (F * F * F)) :=
  v_prev ← values !! (i - 1)%nat;
  v_i ← values !! i;
  let crossing := rossler_crossing direction v_prev section_value v_i in
  if crossing then
    let t_frac := rossler_t_frac v_prev section_value v_i in
    x_prev ← xs !! (i - 1)%nat;
    x_i ← xs !! i;
    let x_cross := x_prev + t_frac * (x_i - x_prev) in
    y_prev ← ys !! (i - 1)%nat;
    y_i ← ys !! i;
    let y_cross := y_prev + t_frac * (y_i - y_prev) in
    z_prev ← zs !! (i - 1)%nat;
    z_i ← zs !! i;
    let z_cross := z_prev + t_frac * (z_i - z_prev) in
    Some (crossings ++ [(x_cross, y_cross, z_cross)])
  else Some crossings.

(** [compute_rossler_poincare(xs, ys, zs, section_axis, section_value, direction)] *)
Definition compute_rossler_poincare (xs ys zs : list F) (section_axis : string)
    (section_value : F) (direction : string) : option (list (F * F * F)) :=
  let values := rossler_values xs ys zs section_axis in
  for_loop (rossler_body xs ys zs values section_value direction)
           (range 1 (length values)) [].

End Detectors.

(** ** Vector fields

    The right-hand sides handed to the integrator.  A state and a
    derivative are Python sequences of fixed length, unpacked on entry
    ([x, y = state]) and built as a list on return; they are tuples here.
    [static_plots.py] holds copies of [van_der_pol], [lorenz] and
    [rossler_system] (there [rossler]) with the same bodies. *)

Section VectorFields.
Context {F : Type} {A : Arith F} {P : PyPow F}.
Local Open Scope py_scope.

(** [van_der_pol(t, state, mu)] *)
Definition van_der_pol (t : F) (state : F * F) (mu : F) : F * F :=
  let '(x, y) := state in
  (y, mu * (lit 1 - pow2 x) * y - x).

(** [lorenz(t, state, sigma, rho, beta)] *)
Definition lorenz (t : F) (state : F * F * F) (sigma rho beta : F) : F * F * F :=
  let '(x, y, z) := state in
  (sigma * (y - x),
   x * (rho - z) - y,
   x * y - beta * z).

(** [hopf_system(t, state, mu)] *)
Definition hopf_system (t : F) (state : F * F) (mu : F) : F * F :=
  let '(x, y) := state in
  let r_sq := pow2 x + pow2 y in
  let dxdt := mu * x - y - x * r_sq in
  let dydt := x + mu * y - y * r_sq in
  (dxdt, dydt).

(** [rossler_system(t, state, a, b, c)] *)
Definition rossler_system (t : F) (state : F * F * F) (a b c : F) : F * F * F :=
  let '(x, y, z) := state in
  (- y - z, x + a * y, b + z * (x - c)).

(** The coordinates [get_equilibria] of [LorenzRhoGrowthScene.construct]
    places its dots at: the origin always, and the pair C+, C- when
    [rho > 1].  ([LorenzAttractorScene] and [LorenzParticleScene] compute
    the same pair for rho = 28.) *)
Definition get_equilibria (rho beta : F) : list (F * F * F) :=
  let origin := (lit 0, lit 0, lit 0) in
  if rho >? lit 1 then
    let sqrt_val := fsqrt (beta * (rho - lit 1)) in
    let z_eq := rho - lit 1 in
    [origin; (sqrt_val, sqrt_val, z_eq); (- sqrt_val, - sqrt_val, z_eq)]
  else [origin].

(** The loop of [HenonAttractorScene.construct] over the fixed points:
    the eigenvalues at each one and the label they get. *)
Definition fixed_point_labels (a b : F) : option (list string) :=
  fixed_pts ← henon_fixed_points a b;
  Some ((λ p : F * F,
           let '(fx, fy) := p in
           let '(eig1, eig2) := henon_jacobian_eigenvalues fx a b in
           stab_str eig1 eig2) <$> (fixed_pts : list (F * F)%type)).

(** [count_switches] of [LorenzParticleScene.construct], on the abscissa
    [x] it reads from the current state: the closure's [last_sign] and
    the counter are the state, and the result is the state after the
    call. *)
Definition count_switches (st : Z * Z) (x : F) : Z * Z :=
  let '(last_sign, switch_count) := st in
  let current_sign := if x >? lit 0 then 1%Z else (-1)%Z in
  if negb (current_sign =? last_sign)%Z
  then (current_sign, (switch_count + 1)%Z)
  else (last_sign, switch_count).

(** The calls of one animation, frame after frame, from the initial
    [last_sign = 1] and a counter at 0. *)
Definition count_switches_run (frames : list F) : Z * Z :=
  foldl count_switches (1%Z, 0%Z) frames.

End VectorFields.

(** ** The pendulum

    [np.sin], [np.cos] and [np.pi] are not part of [Arith]; they are an
    interface of their own, read at [R] only. *)

Class Trig (F : Type) : Type := {
  fsin : F → F;
  fcos : F → F;
  fpi : F
}.

#[export] Instance exact_trig : Trig R := {|
  fsin := sin; fcos := cos; fpi := PI
|}.

Section Pendulum.
Context {F : Type} {A : Arith F} {T : Trig F}.
Local Open Scope py_scope.

(** [pendulum_system(t, state, g_over_L, damping)] *)
Definition pendulum_system (t : F) (state : F * F) (g_over_L damping : F) : F * F :=
  let '(theta, omega) := state in
  (omega, - g_over_L * fsin theta - damping * omega).

(** [pendulum_energy(theta, omega, g_over_L)] *)
Definition pendulum_energy (theta omega g_over_L : F) : F :=
  lit 0.5 * pow2 omega - g_over_L * fcos theta.

(** [omega0] and [omega_cross] of [PendulumDynamicsScene.construct]: the
    angular velocity at theta = 0 chosen for an orbit of energy [E]. *)
Definition omega_cross (E g_over_L : F) : F := fsqrt (lit 2 * (E + g_over_L)).

(** [sep_omega_pos] and [sep_omega_neg] of the same scene, at one angle
    of [sep_theta]. *)
Definition sep_omega_pos (g_over_L theta : F) : F :=
  fsqrt (lit 2 * g_over_L * (lit 1 + fcos theta)).
Definition sep_omega_neg (g_over_L theta : F) : F := - sep_omega_pos g_over_L theta.

End Pendulum.

(** ** Notions used in the statements

    Closed forms against which the loops are verified: the map applied
    [n] times, and, for each detector, the test and the recorded value at
    an index whose samples are read with a total lookup. *)

(** Reading an array at an index known to be in range; the default is
    never returned where the lemmas below use it. *)
#[export] Instance Arith_inhabited {F : Type} {A : Arith F} : Inhabited F :=
  populate (lit 0).

Section Reference.
Context {F : Type} {A : Arith F} {P : PyPow F}.
Local Open Scope py_scope.

(** One application of the map to a state. *)
Definition henon_step (a b : F) (p : F * F) : option (F * F) :=
  henon_map p.1 p.2 a b.

(** The map applied [n] times to a seed: the state reached, or [None]
    if one of the [n] applications raises. *)
Definition henon_iter (a b : F) (n : nat) (seed : F * F) : option (F * F) :=
  Nat.iter n (λ s, s ≫= henon_step a b) (Some seed).

(** The primary section test between samples [i - 1] and [i]: y crosses
    zero upward. *)
Definition vdp_primary (ys : list F) (i : nat) : bool :=
  (ys !!! (i - 1)%nat <? lit 0) && (ys !!! i >=? lit 0).

(** The interpolated crossing abscissa between samples [i - 1] and [i]. *)
Definition vdp_x_cross (xs ys : list F) (i : nat) : F :=
  if fabs (ys !!! i - ys !!! (i - 1)%nat) >? lit 1e-10
  then xs !!! (i - 1)%nat
       + vdp_t_frac (ys !!! (i - 1)%nat) (ys !!! i) * (xs !!! i - xs !!! (i - 1)%nat)
  else xs !!! i.

(** The section test between samples [i - 1] and [i]. *)
Definition lorenz_crossing_at (zs : list F) (z_section : F) (i : nat) : bool :=
  (zs !!! (i - 1)%nat <? z_section) && (z_section <=? zs !!! i).

(** The crossing point recorded between samples [i - 1] and [i]. *)
Definition lorenz_cross (xs ys zs : list F) (z_section : F) (i : nat) : F * F * F :=
  let t_frac := lorenz_t_frac (zs !!! (i - 1)%nat) z_section (zs !!! i) in
  (xs !!! (i - 1)%nat + t_frac * (xs !!! i - xs !!! (i - 1)%nat),
   ys !!! (i - 1)%nat + t_frac * (ys !!! i - ys !!! (i - 1)%nat),
   z_section).

(** The crossing rule in the words of the specification: with direction
    'positive' the section value is passed upward, the upper sample
    included; with any other direction it is passed downward, the lower
    sample included. *)
Definition crossing_registered (direction : string) (values : list F)
    (section_value : F) (i : nat) : bool :=
  let v_prev := values !!! (i - 1)%nat in
  let v_i := values !!! i in
  if bool_decide (direction = "positive")
  then (v_prev <? section_value) && (section_value <=? v_i)
  else (v_prev >? section_value) && (section_value >=? v_i).

(** The interpolation fraction in the words of the specification. *)
Definition crossing_frac (values : list F) (section_value : F) (i : nat) : F :=
  let v_prev := values !!! (i - 1)%nat in
  let v_i := values !!! i in
  if fabs (v_i - v_prev) >? lit 1e-10
  then (section_value - v_prev) / (v_i - v_prev)
  else lit 0.5.

(** Linear interpolation between two values of one coordinate. *)
Definition lerp (frac p q : F) : F := p + frac * (q - p).

(** The recorded state: the interpolation of the two bracketing samples,
    coordinate by coordinate. *)
Definition crossing_state (xs ys zs values : list F) (section_value : F) (i : nat)
  : F * F * F :=
  let frac := crossing_frac values section_value i in
  (lerp frac (xs !!! (i - 1)%nat) (xs !!! i),
   lerp frac (ys !!! (i - 1)%nat) (ys !!! i),
   lerp frac (zs !!! (i - 1)%nat) (zs !!! i)).

(** What the Lorenz detector does at an index where it has seen a
    crossing: it reads the four bracketing coordinates, any of which may
    be out of range, and builds the crossing point. *)
Definition lorenz_read (xs ys zs : list F) (z_section : F) (i : nat)
  : option (F * F * F) :=
  let t_frac := lorenz_t_frac (zs !!! (i - 1)%nat) z_section (zs !!! i) in
  x_prev ← xs !! (i - 1)%nat;
  x_i ← xs !! i;
  y_prev ← ys !! (i - 1)%nat;
  y_i ← ys !! i;
  Some (x_prev + t_frac * (x_i - x_prev), y_prev + t_frac * (y_i - y_prev), z_section).

(** The coordinate of a recorded state along the section axis, chosen
    as [rossler_values] chooses the array. *)
Definition section_coordinate (section_axis : string) (c : F * F * F) : F :=
  if String.eqb section_axis "y" then c.1.2
  else if String.eqb section_axis "x" then c.1.1
  else c.2.

(** The sign [count_switches] gives an abscissa. *)
Definition current_sign (x : F) : Z := if x >? lit 0 then 1%Z else (-1)%Z.

(** The number of entries of a list of signs that differ from their
    predecessor, [prev] standing before the first. *)
Fixpoint sign_changes (prev : Z) (signs : list Z) : Z :=
  match signs with
  | [] => 0%Z
  | s :: rest => ((if (s =? prev)%Z then 0 else 1) + sign_changes s rest)%Z
  end.

(** The label of one point of abscissa [x], as the loop body of
    [HenonAttractorScene.construct] computes it. *)
Definition eigen_label (x a b : F) : string :=
  let '(eig1, eig2) := henon_jacobian_eigenvalues x a b in
  stab_str eig1 eig2.

End Reference.

Section ReferenceExact.
Local Open Scope R_scope.

(** The two roots the code computes, in exact arithmetic. *)
Definition root_plus (a b : R) : R :=
  (- (1 - b) + sqrt ((1 - b) ^ 2 + 4 * a)) / (2 * a).
Definition root_minus (a b : R) : R :=
  (- (1 - b) - sqrt ((1 - b) ^ 2 + 4 * a)) / (2 * a).

End ReferenceExact.

(** * Properties *)

(** ** Transient discard and retained states of [iterate_henon] *)

(** A comprehension over the image of a list. *)
Lemma mapM_fmap {X Y Z : Type} (f : Y → option Z) (h : X → Y) (l : list X) :
  mapM f (h <$> l) = mapM (f ∘ h) l.
Proof.
  induction l as [|x l IH]; [done|].
  cbn [fmap list_fmap mapM]. unfold compose at 1. fold (h <$> l).
  by rewrite IH.
Qed.

Lemma mapM_ext_in {X Y : Type} (f g : X → option Y) (l : list X) :
  (∀ x, x ∈ l → f x = g x) → mapM f l = mapM g l.
Proof.
  induction l as [|x l IH]; intros Hfg; [done|].
  cbn [mapM]. rewrite Hfg by left.
  by rewrite IH by (intros y Hy; apply Hfg; by right).
Qed.

Section HenonIteration.
Context {F : Type} {A : Arith F} {P : PyPow F}.

Lemma iter_bind_None (f : F * F → option (F * F)) (n : nat) :
  Nat.iter n (λ s, s ≫= f) None = None.
Proof. induction n as [|n IH]; [done|]. by rewrite Nat.iter_succ, IH. Qed.

(** The first application, then the others. *)
Lemma henon_iter_first a b n x y :
  henon_iter a b (S n) (x, y) = p ← henon_map x y a b; henon_iter a b n p.
Proof.
  unfold henon_iter. rewrite Nat.iter_succ_r. cbn [mbind option_bind].
  unfold henon_step at 2. cbn [fst snd].
  destruct (henon_map x y a b) as [p|]; [done|]. apply iter_bind_None.
Qed.

Lemma henon_iter_add a b n m seed :
  henon_iter a b (n + m) seed = p ← henon_iter a b n seed; henon_iter a b m p.
Proof.
  unfold henon_iter. rewrite Nat.add_comm, Nat.iter_add.
  destruct (Nat.iter n _ (Some seed)) as [p|]; [done|]. apply iter_bind_None.
Qed.

(** The map raises only where the square does. *)
Lemma henon_map_None a b x y : henon_map x y a b = None ↔ py_pow2 x = None.
Proof. unfold henon_map. by destruct (py_pow2 x). Qed.

(** An iteration that fails has a first state whose square raises. *)
Lemma henon_iter_None a b n seed :
  henon_iter a b n seed = None →
  ∃ (j : nat) (x y : F),
    (j < n)%nat ∧ henon_iter a b j seed = Some (x, y) ∧ py_pow2 x = None.
Proof.
  induction n as [|n IH]; [done|].
  change (henon_iter a b (S n) seed)
    with (henon_iter a b n seed ≫= henon_step a b).
  destruct (henon_iter a b n seed) as [[x y]|] eqn:Hn.
  - cbn. intros Hm%henon_map_None. exists n, x, y. split; [lia|done].
  - intros _. destruct (IH eq_refl) as (j & x & y & Hj & Hs & Hp).
    exists j, x, y. split; [lia|done].
Qed.

Lemma henon_iter_None_le a b n m seed :
  (n ≤ m)%nat → henon_iter a b n seed = None → henon_iter a b m seed = None.
Proof.
  intros Hle Hn. replace m with (n + (m - n))%nat by lia.
  by rewrite henon_iter_add, Hn.
Qed.

Lemma transient_iter a b n x y :
  transient a b n x y = henon_iter a b n (x, y).
Proof.
  revert x y. induction n as [|n IH]; intros x y; [done|].
  rewrite henon_iter_first. cbn [transient].
  destruct (henon_map x y a b) as [[x' y']|]; [|done]. cbn. apply IH.
Qed.

Lemma collect_iter a b n x y xs ys :
  collect a b n x y xs ys =
    ps ← mapM (λ j, henon_iter a b (S j) (x, y)) (seq 0 n);
    Some (xs ++ ps.*1, ys ++ ps.*2).
Proof.
  revert x y xs ys. induction n as [|n IH]; intros x y xs ys.
  - cbn. by rewrite !app_nil_r.
  - cbn [collect seq mapM]. rewrite henon_iter_first.
    destruct (henon_map x y a b) as [[x' y']|] eqn:Hm; [|done].
    cbn [mbind option_bind fst snd henon_iter Nat.iter]. rewrite IH.
    rewrite <- fmap_S_seq, mapM_fmap.
    rewrite (mapM_ext_in ((λ j, henon_iter a b (S j) (x, y)) ∘ S)
               (λ j, henon_iter a b (S j) (x', y'))).
    2:{ intros j _. unfold compose. by rewrite (henon_iter_first a b (S j)), Hm. }
    change (henon_iter a b 0 (x', y')) with (Some (x', y')).
    destruct (mapM _ (seq 0 n)) as [ps|]; [|done].
    cbn. by rewrite <- !(assoc_L (++)).
Qed.

(** The returned arrays, in closed form: entry [k] is the seed after
    [n_transient + k] applications of the map, for [k = 0 .. n_iter];
    the call fails if one of these states cannot be computed. *)
Lemma iterate_henon_iter a b x0 y0 n_iter n_transient :
  iterate_henon a b x0 y0 n_iter n_transient =
    ps ← mapM (λ k, henon_iter a b (n_transient + k) (x0, y0)) (seq 0 (S n_iter));
    Some (ps.*1, ps.*2).
Proof.
  unfold iterate_henon. rewrite transient_iter. cbn [seq mapM].
  rewrite Nat.add_0_r.
  destruct (henon_iter a b n_transient (x0, y0)) as [[x y]|] eqn:HT; [|done].
  cbn [mbind option_bind fst snd]. rewrite collect_iter.
  rewrite <- fmap_S_seq, mapM_fmap.
  rewrite (mapM_ext_in ((λ k, henon_iter a b (n_transient + k) (x0, y0)) ∘ S)
             (λ j, henon_iter a b (S j) (x, y))).
  2:{ intros j _. unfold compose. by rewrite henon_iter_add, HT. }
  by destruct (mapM _ (seq 0 n_iter)).
Qed.

(** The call fails exactly when the last state it needs cannot be
    computed. *)
Lemma iterate_henon_None a b x0 y0 n_iter n_transient :
  iterate_henon a b x0 y0 n_iter n_transient = None
  ↔ henon_iter a b (n_transient + n_iter) (x0, y0) = None.
Proof.
  rewrite iterate_henon_iter. split.
  - intros H.
    destruct (mapM _ (seq 0 (S n_iter))) as [ps|] eqn:Hps; [done|].
    apply mapM_None, Exists_exists in Hps as (k & [_ Hk]%elem_of_seq & Hnone).
    apply (henon_iter_None_le a b (n_transient + k)); [lia|done].
  - intros H.
    destruct (mapM _ (seq 0 (S n_iter))) as [ps|] eqn:Hps; [|done].
    apply mapM_Some in Hps.
    destruct (Forall2_lookup_l _ _ _ n_iter n_iter Hps) as (p & _ & Hp);
      [apply lookup_seq; lia|]. congruence.
Qed.

(** What a call that returns, returns. *)
Lemma iterate_henon_Some a b x0 y0 n_iter n_transient xs ys :
  iterate_henon a b x0 y0 n_iter n_transient = Some (xs, ys) →
  length xs = S n_iter ∧ length ys = S n_iter
  ∧ ∀ k : nat, (k ≤ n_iter)%nat →
      ∃ x y : F,
        henon_iter a b (n_transient + k) (x0, y0) = Some (x, y)
        ∧ xs !! k = Some x ∧ ys !! k = Some y.
Proof.
  rewrite iterate_henon_iter.
  destruct (mapM _ (seq 0 (S n_iter))) as [ps|] eqn:Hps; [|done].
  intros [= <- <-]. apply mapM_Some in Hps.
  pose proof (Forall2_length _ _ _ Hps) as Hlen. rewrite length_seq in Hlen.
  rewrite !length_fmap. split; [done|]. split; [done|].
  intros k Hk.
  destruct (Forall2_lookup_l _ _ _ k k Hps) as ([x y] & Hp & Hit);
    [apply lookup_seq; lia|].
  exists x, y. split; [done|]. by rewrite !list_lookup_fmap, Hp.
Qed.

End HenonIteration.

(** Two floats that the IEEE comparison tells apart are different. *)
Lemma float_neq (x y : float) :
  PrimFloat.eqb x x = true → PrimFloat.eqb x y = false → x ≠ y.
Proof. intros Hx Hy ->. congruence. Qed.

(** C1, as the specification words it, fails: with [n_transient = 0] and
    [n_iter = 1] from the seed (0, 0) at a = 1, b = 0.5 the code returns
    the two states (0, 0) and (1, 0), not one state; and the first of them
    is the seed itself, not the map applied once to it. *)
Lemma iterate_henon_keeps_transient_end :
  iterate_henon (A:=binary64) 1%float 0.5%float 0%float 0%float 1 0
    = Some ([0; 1]%float, [0; 0]%float)
  ∧ length [0; 1]%float ≠ 1%nat
  ∧ henon_iter (A:=binary64) 1%float 0.5%float (0 + 1) (0, 0)%float = Some (1, 0)%float
  ∧ head [0; 1]%float ≠ Some 1%float.
Proof.
  split; [vm_compute; reflexivity|]. split; [cbn; lia|].
  split; [vm_compute; reflexivity|].
  intros H. apply (float_neq 0 1); [done|done|].
  exact (f_equal (default 0%float) H).
Qed.

(** C1 (amended): a call of [iterate_henon] ends in the OverflowError of
    [x**2] exactly when the map cannot be applied [n_transient + n_iter]
    times to the seed, and it always returns where the square never
    raises (in exact arithmetic, say).  When it returns, it returns
    exactly [n_iter + 1] states: for every [k <= n_iter] entry [k] is the
    map applied [n_transient + k] times to the seed, so the first
    retained state is the state at the end of the transient and the
    [n_iter] further iterates follow it. *)
Theorem iterate_henon_retained {F : Type} {A : Arith F} {P : PyPow F}
    (a b x0 y0 : F) (n_iter n_transient : nat) :
  (iterate_henon a b x0 y0 n_iter n_transient = None
   ↔ henon_iter a b (n_transient + n_iter) (x0, y0) = None)
  ∧ ((∀ x : F, is_Some (py_pow2 x)) →
     is_Some (iterate_henon a b x0 y0 n_iter n_transient))
  ∧ ∀ xs ys : list F,
      iterate_henon a b x0 y0 n_iter n_transient = Some (xs, ys) →
      length xs = S n_iter ∧ length ys = S n_iter
      ∧ (head xs, head ys)
        = (fst <$> henon_iter a b n_transient (x0, y0),
           snd <$> henon_iter a b n_transient (x0, y0))
      ∧ ∀ k : nat, (k ≤ n_iter)%nat →
          ∃ x y : F,
            henon_iter a b (n_transient + k) (x0, y0) = Some (x, y)
            ∧ xs !! k = Some x ∧ ys !! k = Some y.
Proof.
  split; [apply iterate_henon_None|]. split.
  - intros Htotal.
    destruct (iterate_henon a b x0 y0 n_iter n_transient) eqn:Hr; [done|].
    apply iterate_henon_None, henon_iter_None in Hr as (j & x & y & _ & _ & Hp).
    destruct (Htotal x) as [sq Hsq]. congruence.
  - intros xs ys Hr.
    destruct (iterate_henon_Some _ _ _ _ _ _ _ _ Hr) as (Hx & Hy & Hk).
    split; [done|]. split; [done|]. split; [|done].
    destruct (Hk 0%nat ltac:(lia)) as (x & y & Hit & Hxs & Hys).
    rewrite Nat.add_0_r in Hit. rewrite Hit. cbn.
    destruct xs, ys; cbn in *; congruence.
Qed.

(** C4, as the specification words it, fails: from x0 = 2^511 at a = 4 the
    square 2^1022 is finite and its product with [a] overflows, so the
    first iterate has x = -inf; the call returns normally and the returned
    array holds that non-finite state. *)
Lemma iterate_henon_returns_non_finite :
  iterate_henon (A:=binary64) 4%float 0.5%float 0x1p+511%float 0%float 1 0
    = Some ([0x1p+511; PrimFloat.neg_infinity]%float, [0; 0x1p+510]%float)
  ∧ henon_iter (A:=binary64) 4%float 0.5%float 1 (0x1p+511, 0)%float
    = Some (PrimFloat.neg_infinity, 0x1p+510%float)
  ∧ PrimFloat.is_finite PrimFloat.neg_infinity = false
  ∧ [0x1p+511; PrimFloat.neg_infinity]%float !! 1%nat = Some PrimFloat.neg_infinity.
Proof. vm_compute. done. Qed.

(** C4 (amended): [iterate_henon] has no finiteness test and reports no
    DivergenceFailure.  A call that fails does so with the OverflowError
    of [x**2], raised at the first of the [n_transient + n_iter] states
    whose square overflows; nothing is returned then, no last finite
    state and no index.  A call that returns has stored every state: for
    every [k <= n_iter], entry [k] of the arrays is the running state
    after [n_transient + k] applications of the map, whatever its value,
    so a state that has become non-finite without an overflowing square
    (through [a * x**2], say) is stored like any other. *)
Theorem iterate_henon_stores_every_state {F : Type} {A : Arith F} {P : PyPow F}
    (a b x0 y0 : F) (n_iter n_transient : nat) :
  match iterate_henon a b x0 y0 n_iter n_transient with
  | None =>
      ∃ (j : nat) (x y : F),
        (j < n_transient + n_iter)%nat
        ∧ henon_iter a b j (x0, y0) = Some (x, y) ∧ py_pow2 x = None
  | Some r =>
      ∀ k : nat, (k ≤ n_iter)%nat →
        ∃ x y : F,
          henon_iter a b (n_transient + k) (x0, y0) = Some (x, y)
          ∧ r.1 !! k = Some x ∧ r.2 !! k = Some y
  end.
Proof.
  destruct (iterate_henon a b x0 y0 n_iter n_transient) as [[xs ys]|] eqn:Hr.
  - by apply iterate_henon_Some in Hr as (_ & _ & Hk).
  - by apply iterate_henon_None, henon_iter_None in Hr.
Qed.

(** ** Exact arithmetic: the interface at [R] *)

Section ExactArithmetic.
Local Open Scope R_scope.

Lemma R_ltb_true (x y : R) : R_ltb x y = true ↔ x < y.
Proof. unfold R_ltb. destruct (Rlt_dec x y); split; (done || lra). Qed.

Lemma R_ltb_false (x y : R) : R_ltb x y = false ↔ y <= x.
Proof. unfold R_ltb. destruct (Rlt_dec x y); split; (done || lra). Qed.

Lemma R_leb_true (x y : R) : R_leb x y = true ↔ x <= y.
Proof. unfold R_leb. destruct (Rle_dec x y); split; (done || lra). Qed.

Lemma R_leb_false (x y : R) : R_leb x y = false ↔ y < x.
Proof. unfold R_leb. destruct (Rle_dec x y); split; (done || lra). Qed.

End ExactArithmetic.

(** Unfold the interface at [R] down to the operations of [Reals]. *)
Ltac exact_arith :=
  cbn [lit fadd fsub fmul fdiv fneg fabs fsqrt flt fle exact py_pow2 exact_pow] in *;
  unfold pow2, Q2R in *;
  cbn [lit fadd fsub fmul fdiv fneg fabs fsqrt flt fle exact Qnum Qden] in *.

Ltac R_case_ltb x y :=
  let H := fresh "Hlt" in
  destruct (R_ltb x y) eqn:H;
  [apply R_ltb_true in H | apply R_ltb_false in H].

(** ** The stability label *)

Section Stability.
Local Open Scope R_scope.

(** For two real eigenvalues the label is decided by one test. *)
Lemma stab_str_real {F : Type} {A : Arith F} (l1 l2 : F) :
  stab_str (real_eig l1) (real_eig l2) =
    if flt (lit 1) (fabs l1) || flt (lit 1) (fabs l2) then "saddle" else "stable".
Proof. reflexivity. Qed.

Lemma stab_str_real_saddle (l1 l2 : R) :
  stab_str (A:=exact) (real_eig l1) (real_eig l2) = "saddle" ↔ Rabs l1 > 1 ∨ Rabs l2 > 1.
Proof.
  rewrite stab_str_real. exact_arith.
  R_case_ltb (1 * / 1) (Rabs l1); R_case_ltb (1 * / 1) (Rabs l2); cbn;
    (split; [try done; intros _; lra | try done; intros [?|?]; lra]).
Qed.

Lemma stab_str_real_stable (l1 l2 : R) :
  stab_str (A:=exact) (real_eig l1) (real_eig l2) = "stable" ↔ Rabs l1 <= 1 ∧ Rabs l2 <= 1.
Proof.
  rewrite stab_str_real. exact_arith.
  R_case_ltb (1 * / 1) (Rabs l1); R_case_ltb (1 * / 1) (Rabs l2); cbn;
    (split; [try done; intros _; lra | try done; intros [? ?]; lra]).
Qed.

End Stability.

Section StabilityClaims.
Local Open Scope R_scope.

(** C3, as the specification words it, fails: at x = -0.5, a = 1, b = 0
    the Jacobian has trace 1 and determinant 0, its eigenvalues are 1 and
    0, and the label is "stable", not "marginal"; in binary64 as in exact
    arithmetic. *)
Lemma unit_eigenvalue_labelled_stable :
  let e := henon_jacobian_eigenvalues (A:=binary64) (-0.5)%float 1%float 0%float in
  e = (real_eig 1%float, real_eig 0%float)
  ∧ PrimFloat.eqb (PrimFloat.abs 1) 1 = true
  ∧ stab_str e.1 e.2 = "stable"
  ∧ stab_str e.1 e.2 ≠ "marginal"
  ∧ Rabs 1 = 1
  ∧ stab_str (A:=exact) (real_eig 1) (real_eig 0) = "stable".
Proof.
  assert (H1 : Rabs 1 = 1) by (apply Rabs_pos_eq; lra).
  split; [vm_compute; reflexivity|]. split; [vm_compute; reflexivity|].
  split; [vm_compute; reflexivity|]. split; [vm_compute; done|].
  split; [done|]. apply stab_str_real_stable. rewrite H1, Rabs_R0. lra.
Qed.

(** C3 (amended): the label is one of "spiral", "saddle", "stable" and
    there is none for the boundary: two real eigenvalues of which one has
    magnitude exactly 1 are labelled "stable" when the other magnitude is
    at most 1 (the larger magnitude is then exactly 1) and "saddle" when
    it exceeds 1. *)
Theorem stab_str_unit_magnitude (l1 l2 : R) :
  Rabs l1 = 1 ∨ Rabs l2 = 1 →
  let s := stab_str (A:=exact) (real_eig l1) (real_eig l2) in
  s ≠ "marginal"
  ∧ (s = "stable" ↔ Rmax (Rabs l1) (Rabs l2) = 1)
  ∧ (s = "saddle" ↔ Rmax (Rabs l1) (Rabs l2) > 1).
Proof.
  intros Hb s. split; [|split].
  - subst s. rewrite stab_str_real.
    by destruct (flt _ _ || flt _ _).
  - subst s. rewrite stab_str_real_stable.
    unfold Rmax. destruct (Rle_dec (Rabs l1) (Rabs l2)); lra.
  - subst s. rewrite stab_str_real_saddle.
    unfold Rmax. destruct (Rle_dec (Rabs l1) (Rabs l2)); lra.
Qed.

Lemma stab_str_unit_magnitude_witness :
  (Rabs 1 = 1 ∨ Rabs (1 / 2) = 1)
  ∧ stab_str (A:=exact) (real_eig 1) (real_eig (1 / 2)) = "stable".
Proof.
  assert (H1 : Rabs 1 = 1) by (apply Rabs_pos_eq; lra).
  assert (H2 : Rabs (1 / 2) = 1 / 2) by (apply Rabs_pos_eq; lra).
  split; [by left|].
  apply (stab_str_unit_magnitude 1 (1 / 2)); [by left|].
  rewrite H1, H2. unfold Rmax. destruct (Rle_dec 1 (1 / 2)); lra.
Defined.

(** C5, as the specification words it, fails: at x = -2.5, a = 1, b = -6
    the Jacobian has trace 5 and determinant 6, its eigenvalues are 3 and
    2, both of magnitude above 1, and the label is "saddle", not
    "repelling". *)
Lemma expanding_eigenvalues_labelled_saddle :
  let e := henon_jacobian_eigenvalues (A:=binary64) (-2.5)%float 1%float (-6)%float in
  e = (real_eig 3%float, real_eig 2%float)
  ∧ PrimFloat.ltb 1 (PrimFloat.abs 3) = true
  ∧ PrimFloat.ltb 1 (PrimFloat.abs 2) = true
  ∧ stab_str e.1 e.2 = "saddle"
  ∧ stab_str e.1 e.2 ≠ "repelling"
  ∧ Rabs 3 > 1 ∧ Rabs 2 > 1
  ∧ stab_str (A:=exact) (real_eig 3) (real_eig 2) = "saddle".
Proof.
  assert (H3 : Rabs 3 = 3) by (apply Rabs_pos_eq; lra).
  assert (H2 : Rabs 2 = 2) by (apply Rabs_pos_eq; lra).
  split; [vm_compute; reflexivity|]. split; [vm_compute; reflexivity|].
  split; [vm_compute; reflexivity|]. split; [vm_compute; reflexivity|].
  split; [vm_compute; done|].
  split; [lra|]. split; [lra|]. apply stab_str_real_saddle. lra.
Qed.

(** C5 (amended): there is no "repelling" label.  Two real eigenvalues
    are labelled "saddle" exactly when at least one magnitude exceeds 1,
    so also when both do, and "stable" exactly when neither does. *)
Theorem stab_str_saddle_iff (l1 l2 : R) :
  let s := stab_str (A:=exact) (real_eig l1) (real_eig l2) in
  (Rabs l1 > 1 ∧ Rabs l2 > 1 → s = "saddle")
  ∧ (s = "saddle" ↔ Rabs l1 > 1 ∨ Rabs l2 > 1)
  ∧ (s = "stable" ↔ Rabs l1 <= 1 ∧ Rabs l2 <= 1)
  ∧ s ≠ "repelling".
Proof.
  intros s. split; [|split; [|split]].
  - intros [H _]. apply stab_str_real_saddle. by left.
  - apply stab_str_real_saddle.
  - apply stab_str_real_stable.
  - subst s. rewrite stab_str_real. by destruct (flt _ _ || flt _ _).
Qed.

End StabilityClaims.

(** ** Fixed points of the Hénon map *)

Section FixedPoints.
Local Open Scope R_scope.

Lemma henon_discriminant_exact (a b : R) :
  henon_discriminant (A:=exact) a b = Some ((1 - b) ^ 2 + 4 * a).
Proof. unfold henon_discriminant. exact_arith. cbn. f_equal. lra. Qed.

Lemma henon_fixed_points_exact (a b : R) :
  0 <= (1 - b) ^ 2 + 4 * a →
  henon_fixed_points (A:=exact) a b =
    Some [(root_plus a b, b * root_plus a b); (root_minus a b, b * root_minus a b)].
Proof.
  intros HD. unfold henon_fixed_points.
  rewrite henon_discriminant_exact. cbn [mbind option_bind].
  replace (@flt R exact ((1 - b) ^ 2 + 4 * a) (lit 0)) with false.
  2:{ symmetry. exact_arith. apply R_ltb_false. lra. }
  unfold root_plus, root_minus. exact_arith.
  replace (1 * / 1 - b) with (1 - b) by lra.
  replace (2 * / 1 * a) with (2 * a) by lra. done.
Qed.

(** Where (1 - b)^2 + 4a is negative the empty list is returned. *)
Lemma henon_fixed_points_negative (a b : R) :
  (1 - b) ^ 2 + 4 * a < 0 → henon_fixed_points (A:=exact) a b = Some [].
Proof.
  intros HD. unfold henon_fixed_points.
  rewrite henon_discriminant_exact. cbn [mbind option_bind].
  replace (@flt R exact ((1 - b) ^ 2 + 4 * a) (lit 0)) with true; [done|].
  symmetry. exact_arith. apply R_ltb_true. lra.
Qed.

(** A root of a x^2 + (1 - b) x - 1 is a fixed point of the map. *)
Lemma henon_map_fixes_root (a b x : R) :
  a * x ^ 2 + (1 - b) * x - 1 = 0 →
  henon_map (A:=exact) x (b * x) a b = Some (x, b * x).
Proof.
  intros Hx. unfold henon_map. exact_arith. cbn. do 2 f_equal. nra.
Qed.

Lemma root_plus_is_root (a b : R) :
  a ≠ 0 → 0 <= (1 - b) ^ 2 + 4 * a →
  a * root_plus a b ^ 2 + (1 - b) * root_plus a b - 1 = 0.
Proof.
  intros Ha HD. unfold root_plus.
  pose proof (sqrt_sqrt _ HD) as Hs.
  set (s := sqrt ((1 - b) ^ 2 + 4 * a)) in *.
  field_simplify_eq; [|done]. nra.
Qed.

Lemma root_minus_is_root (a b : R) :
  a ≠ 0 → 0 <= (1 - b) ^ 2 + 4 * a →
  a * root_minus a b ^ 2 + (1 - b) * root_minus a b - 1 = 0.
Proof.
  intros Ha HD. unfold root_minus.
  pose proof (sqrt_sqrt _ HD) as Hs.
  set (s := sqrt ((1 - b) ^ 2 + 4 * a)) in *.
  field_simplify_eq; [|done]. nra.
Qed.

Lemma roots_distinct (a b : R) :
  a ≠ 0 → 0 < (1 - b) ^ 2 + 4 * a → root_plus a b ≠ root_minus a b.
Proof.
  intros Ha HD Heq. unfold root_plus, root_minus in Heq.
  pose proof (sqrt_lt_R0 _ HD) as Hs.
  set (s := sqrt ((1 - b) ^ 2 + 4 * a)) in *.
  apply Rmult_eq_reg_r in Heq; [lra|].
  apply Rinv_neq_0_compat. lra.
Qed.

End FixedPoints.

Section FixedPointClaims.
Local Open Scope R_scope.

(** C8, as the specification words it, fails on floats: at a = 1.4,
    b = 0.3 the code returns two points, and the first of them does not
    satisfy x = 1 - a x^2 + y: the map moves its abscissa to the next
    float. *)
Lemma henon_fixed_point_moved :
  ∃ p1 p2 : float * float,
    henon_fixed_points (A:=binary64) (lit 1.4) (lit 0.3) = Some [p1; p2]
    ∧ henon_map (A:=binary64) p1.1 p1.2 (lit 1.4) (lit 0.3)
      = Some (PrimFloat.next_up p1.1, p1.2)
    ∧ PrimFloat.eqb (PrimFloat.next_up p1.1) p1.1 = false
    ∧ PrimFloat.eqb
        (PrimFloat.add
           (PrimFloat.sub 1 (PrimFloat.mul (lit 1.4) (PrimFloat.mul p1.1 p1.1)))
           p1.2)
        p1.1 = false.
Proof. vm_compute. do 2 eexists. repeat split. Qed.

(** C8 (amended): in exact arithmetic, at a = 1.4, b = 0.3 the
    discriminant (1 - b)^2 + 4a is 6.09 > 0 and [henon_fixed_points]
    returns exactly two points, each satisfying x = 1 - a x^2 + y and
    y = b x; for every a, b with (1 - b)^2 + 4a < 0 it returns the empty
    list and raises nothing.  In binary64, at the same parameters, the
    discriminant is the float nearest to 6.09 and two points are
    returned as well (they satisfy the equations up to rounding only). *)
Theorem henon_fixed_points_classic :
  henon_discriminant (A:=exact) 1.4 0.3 = Some 6.09 ∧ 6.09 > 0
  ∧ (∃ p1 p2 : R * R,
        henon_fixed_points (A:=exact) 1.4 0.3 = Some [p1; p2]
        ∧ henon_map (A:=exact) p1.1 p1.2 1.4 0.3 = Some p1
        ∧ henon_map (A:=exact) p2.1 p2.2 1.4 0.3 = Some p2
        ∧ p1.1 = 1 - 1.4 * p1.1 ^ 2 + p1.2 ∧ p1.2 = 0.3 * p1.1
        ∧ p2.1 = 1 - 1.4 * p2.1 ^ 2 + p2.2 ∧ p2.2 = 0.3 * p2.1)
  ∧ (∀ a b : R,
        (1 - b) ^ 2 + 4 * a < 0 → henon_fixed_points (A:=exact) a b = Some [])
  ∧ henon_discriminant (A:=binary64) (lit 1.4) (lit 0.3) = Some (lit 6.09)
  ∧ (∃ q1 q2 : float * float,
        henon_fixed_points (A:=binary64) (lit 1.4) (lit 0.3) = Some [q1; q2]).
Proof.
  split; [rewrite henon_discriminant_exact; f_equal; lra|].
  split; [lra|]. split; [|split; [|split]].
  - assert (HD : 0 <= (1 - 0.3) ^ 2 + 4 * 1.4) by lra.
    assert (Ha : 1.4 ≠ 0) by lra.
    pose proof (root_plus_is_root 1.4 0.3 Ha HD) as Hp.
    pose proof (root_minus_is_root 1.4 0.3 Ha HD) as Hm.
    exists (root_plus 1.4 0.3, 0.3 * root_plus 1.4 0.3),
           (root_minus 1.4 0.3, 0.3 * root_minus 1.4 0.3).
    split; [by apply henon_fixed_points_exact|]. cbn [fst snd].
    split; [by apply henon_map_fixes_root|].
    split; [by apply henon_map_fixes_root|].
    repeat split; lra.
  - apply henon_fixed_points_negative.
  - vm_compute. reflexivity.
  - vm_compute. by do 2 eexists.
Qed.

(** C10, as the specification words it, fails on floats: at a = 1,
    b = 1e200 the square (1 - b)**2 overflows, Python raises
    OverflowError and no fixed point is returned. *)
Lemma henon_fixed_points_overflow :
  PrimFloat.ltb 0 1 = true
  ∧ PrimFloat.is_finite 0x1.4e718d7d7625ap+664 = true
  ∧ py_pow2 (PrimFloat.sub 1 0x1.4e718d7d7625ap+664) = None
  ∧ henon_discriminant (A:=binary64) 1%float 0x1.4e718d7d7625ap+664%float = None
  ∧ henon_fixed_points (A:=binary64) 1%float 0x1.4e718d7d7625ap+664%float = None.
Proof. vm_compute. done. Qed.

(** C10 (amended): in exact arithmetic, for a > 0 and every b the
    discriminant the code computes is (1 - b)^2 + 4a and is strictly
    positive, so the empty branch is never taken: [henon_fixed_points]
    returns exactly two points, their x-coordinates differ, and each
    satisfies x = 1 - a x^2 + y and y = b x.  (On Python floats the call
    can end in the OverflowError of (1 - b)**2 instead.) *)
Theorem henon_fixed_points_positive_a (a b : R) :
  0 < a →
  henon_discriminant (A:=exact) a b = Some ((1 - b) ^ 2 + 4 * a)
  ∧ (1 - b) ^ 2 + 4 * a > 0
  ∧ ∃ x1 y1 x2 y2 : R,
      henon_fixed_points (A:=exact) a b = Some [(x1, y1); (x2, y2)] ∧ x1 ≠ x2
      ∧ henon_map (A:=exact) x1 y1 a b = Some (x1, y1)
      ∧ henon_map (A:=exact) x2 y2 a b = Some (x2, y2)
      ∧ x1 = 1 - a * x1 ^ 2 + y1 ∧ y1 = b * x1
      ∧ x2 = 1 - a * x2 ^ 2 + y2 ∧ y2 = b * x2.
Proof.
  intros Ha. split; [apply henon_discriminant_exact|].
  assert (HD : 0 < (1 - b) ^ 2 + 4 * a) by (pose proof (pow2_ge_0 (1 - b)); lra).
  split; [lra|].
  assert (Ha0 : a ≠ 0) by lra.
  pose proof (root_plus_is_root a b Ha0 (Rlt_le _ _ HD)) as Hp.
  pose proof (root_minus_is_root a b Ha0 (Rlt_le _ _ HD)) as Hm.
  exists (root_plus a b), (b * root_plus a b), (root_minus a b), (b * root_minus a b).
  split; [apply henon_fixed_points_exact; lra|].
  split; [by apply roots_distinct|].
  split; [by apply henon_map_fixes_root|].
  split; [by apply henon_map_fixes_root|].
  repeat split; lra.
Qed.

Lemma henon_fixed_points_positive_a_witness :
  0 < 1
  ∧ henon_discriminant (A:=exact) 1 0 = Some ((1 - 0) ^ 2 + 4 * 1)
  ∧ (1 - 0) ^ 2 + 4 * 1 > 0.
Proof.
  assert (Ha : 0 < 1) by lra. split; [done|].
  destruct (henon_fixed_points_positive_a 1 0 Ha) as (Hd & Hpos & _). done.
Defined.

End FixedPointClaims.

(** ** Loops that append to a list *)

Lemma elem_of_range (lo hi i : nat) : i ∈ range lo hi ↔ (lo ≤ i < hi)%nat.
Proof. unfold range. rewrite elem_of_seq. lia. Qed.

(** Indices kept by a filter of a range are visited in increasing
    order. *)
Lemma filter_range_sorted (test : nat → bool) (lo hi : nat) :
  StronglySorted lt (List.filter test (range lo hi)).
Proof.
  unfold range. generalize (hi - lo)%nat as n. intros n. revert lo.
  induction n as [|n IH]; intros lo; cbn [seq List.filter]; [constructor|].
  destruct (test lo); [|apply IH].
  constructor; [apply IH|].
  apply Forall_forall. intros j Hj%list_elem_of_In%filter_In.
  destruct Hj as [Hj%in_seq _]. lia.
Qed.

Lemma elem_of_filter_range (test : nat → bool) (lo hi i : nat) :
  i ∈ List.filter test (range lo hi) ↔ (lo ≤ i < hi)%nat ∧ test i = true.
Proof. by rewrite list_elem_of_In, filter_In, <- list_elem_of_In, elem_of_range. Qed.

Lemma lookup_in_range {X : Type} `{Inhabited X} (l : list X) (i : nat) :
  (i < length l)%nat → l !! i = Some (l !!! i).
Proof. intros Hi. by apply list_lookup_lookup_total_lt. Qed.

(** A loop whose body appends [f i] when [test i] holds and leaves the
    list alone otherwise builds the list of [f i] over the indices that
    pass the test, in the order the loop visits them. *)
Lemma for_loop_collect {X : Type} (body : list X → nat → option (list X))
    (test : nat → bool) (f : nat → X) (idx : list nat) (acc : list X) :
  (∀ s i, i ∈ idx → body s i = Some (if test i then s ++ [f i] else s)) →
  for_loop body idx acc = Some (acc ++ (f <$> List.filter test idx)).
Proof.
  revert acc. induction idx as [|i idx IH]; intros acc Hbody.
  - cbn. by rewrite app_nil_r.
  - cbn [for_loop List.filter]. rewrite Hbody by left. cbn [mbind option_bind].
    rewrite IH by (intros s j Hj; apply Hbody; by right).
    destruct (test i); [|done].
    by rewrite <- (assoc_L (++)).
Qed.

(** A comprehension whose element expression never fails is a map. *)
Lemma mapM_total {X Y : Type} (f : X → option Y) (g : X → Y) (l : list X) :
  (∀ x, x ∈ l → f x = Some (g x)) → mapM f l = Some (g <$> l).
Proof.
  induction l as [|x l IH]; intros Hf; [done|].
  cbn [mapM]. rewrite Hf by left. cbn [mbind option_bind].
  rewrite IH by (intros y Hy; apply Hf; by right). done.
Qed.

(** ** The return map *)

Section ReturnMap.
Context {F : Type} {A : Arith F}.

Lemma return_map_closed (crossings : list F) :
  return_map crossings =
    Some ((λ i, (crossings !!! i, crossings !!! (i + 1)%nat))
            <$> seq 0 (length crossings - 1)).
Proof.
  unfold return_map, range0.
  replace (Z.to_nat (Z.of_nat (length crossings) - 1)) with (length crossings - 1)%nat by lia.
  apply mapM_total. intros i Hi%elem_of_seq.
  by rewrite !lookup_in_range by lia.
Qed.

(** C7: for [k] crossings the comprehension never fails and yields
    max(k - 1, 0) pairs; pair [i] is (crossing [i], crossing [i + 1]), so
    the pairs follow the order of the crossings; for k = 0 and k = 1 the
    result is the empty list. *)
Theorem return_map_pairs (crossings : list F) :
  ∃ pairs : list (F * F),
    return_map crossings = Some pairs
    ∧ Z.of_nat (length pairs) = Z.max (Z.of_nat (length crossings) - 1) 0
    ∧ (∀ i c c', crossings !! i = Some c → crossings !! (i + 1)%nat = Some c' →
                 pairs !! i = Some (c, c'))
    ∧ (∀ i p, pairs !! i = Some p →
              crossings !! i = Some p.1 ∧ crossings !! (i + 1)%nat = Some p.2)
    ∧ ((length crossings ≤ 1)%nat → pairs = []).
Proof.
  eexists. split; [apply return_map_closed|].
  split; [rewrite length_fmap, length_seq; lia|].
  split; [|split].
  - intros i c c' Hc Hc'.
    pose proof (lookup_lt_Some _ _ _ Hc').
    rewrite list_lookup_fmap, lookup_seq_lt by lia. cbn.
    by rewrite (list_lookup_total_correct _ _ _ Hc), (list_lookup_total_correct _ _ _ Hc').
  - intros i p Hp. rewrite list_lookup_fmap in Hp.
    destruct (seq 0 (length crossings - 1) !! i) as [j|] eqn:Hj; [|done].
    apply lookup_seq in Hj as [-> Hi]. cbn in Hp. injection Hp as <-. cbn [fst snd].
    by rewrite !lookup_in_range by lia.
  - intros Hk. by replace (length crossings - 1)%nat with 0%nat by lia.
Qed.

End ReturnMap.

(** ** The Van der Pol section *)

Section VanDerPol.
Context {F : Type} {A : Arith F}.
Local Open Scope py_scope.

Lemma vdp_body_in_range (xs ys s : list F) (i : nat) :
  length xs = length ys → i ∈ range 1 (length ys) →
  vdp_body xs ys s i =
    Some (if vdp_primary ys i && (xs !!! i >? lit 0)
          then s ++ [vdp_x_cross xs ys i] else s).
Proof.
  intros Hlen Hi%elem_of_range. unfold vdp_body, vdp_primary, vdp_x_cross.
  rewrite !(lookup_in_range ys), !(lookup_in_range xs) by lia.
  cbn [mbind option_bind].
  destruct (_ && _); [|done]. cbn [mbind option_bind andb].
  destruct (xs !!! i >? lit 0); [|done].
  by destruct (fabs _ >? lit 1e-10).
Qed.

End VanDerPol.

(** C2, as the specification words it, fails in both directions.  With
    xs = [-3, 1], ys = [-1, 1] the crossing is kept although its
    interpolated abscissa is -1; with xs = [3, -1], ys = [-1, 1] the
    crossing is dropped although its interpolated abscissa is 1. *)
Lemma vdp_filter_reads_upper_sample :
  vdp_primary (A:=binary64) [-1; 1]%float 1 = true
  ∧ vdp_crossings (A:=binary64) [-3; 1]%float [-1; 1]%float = Some [(-1)%float]
  ∧ vdp_x_cross (A:=binary64) [-3; 1]%float [-1; 1]%float 1 = (-1)%float
  ∧ flt (Arith:=binary64) (lit 0) (-1)%float = false
  ∧ vdp_crossings (A:=binary64) [3; -1]%float [-1; 1]%float = Some []
  ∧ vdp_x_cross (A:=binary64) [3; -1]%float [-1; 1]%float 1 = 1%float
  ∧ flt (Arith:=binary64) (lit 0) 1%float = true.
Proof. vm_compute. repeat split; reflexivity. Qed.

Lemma vdp_crossings_closed {F : Type} {A : Arith F} (xs ys : list F) :
  length xs = length ys →
  vdp_crossings xs ys =
    Some (vdp_x_cross xs ys <$>
          List.filter (λ i, vdp_primary ys i && flt (lit 0) (xs !!! i))
                      (range 1 (length ys))).
Proof.
  intros Hlen. unfold vdp_crossings.
  rewrite (for_loop_collect _
             (λ i, vdp_primary ys i && flt (lit 0) (xs !!! i)) (vdp_x_cross xs ys)).
  - done.
  - intros s i Hi. by apply vdp_body_in_range.
Qed.

(** C2 (amended): the auxiliary condition x > 0 is tested on the upper
    sample [xs[i]], in the same condition as the primary test and before
    any interpolation.  On sample arrays of one length the crossings
    returned are the interpolated abscissas at the kept indices, in index
    order; and an index [i] whose samples pass the primary test
    [ys[i-1] < 0 <= ys[i]] is kept if and only if [xs[i] > 0]. *)
Theorem vdp_crossings_upper_sample {F : Type} {A : Arith F} (xs ys : list F) :
  length xs = length ys →
  let kept :=
    List.filter
      (λ i, (flt (ys !!! (i - 1)%nat) (lit 0) && fle (lit 0) (ys !!! i))
            && flt (lit 0) (xs !!! i))
      (range 1 (length ys)) in
  vdp_crossings xs ys = Some (vdp_x_cross xs ys <$> kept)
  ∧ ∀ i : nat,
      (1 ≤ i < length ys)%nat →
      flt (ys !!! (i - 1)%nat) (lit 0) = true → fle (lit 0) (ys !!! i) = true →
      (i ∈ kept ↔ flt (lit 0) (xs !!! i) = true).
Proof.
  intros Hlen kept. split; [by apply vdp_crossings_closed|].
  intros i Hi Hlo Hhi. subst kept.
  rewrite elem_of_filter_range, Hlo, Hhi. cbn [andb]. tauto.
Qed.

Lemma vdp_crossings_upper_sample_witness :
  length [(-3)%float; 1%float] = length [(-1)%float; 1%float]
  ∧ vdp_crossings (A:=binary64) [-3; 1]%float [-1; 1]%float = Some [(-1)%float].
Proof.
  split; [reflexivity|].
  etrans;
    [apply (vdp_crossings_upper_sample (A:=binary64) [-3; 1]%float [-1; 1]%float);
     reflexivity|].
  vm_compute. reflexivity.
Defined.

(** ** The Lorenz section *)

Section Lorenz.
Context {F : Type} {A : Arith F}.
Local Open Scope py_scope.

Lemma poincare_body_in_range (xs ys zs : list F) (z_section : F)
    (s : list (F * F * F)) (i : nat) :
  length xs = length zs → length ys = length zs → i ∈ range 1 (length zs) →
  poincare_body xs ys zs z_section s i =
    Some (if lorenz_crossing_at zs z_section i
          then s ++ [lorenz_cross xs ys zs z_section i] else s).
Proof.
  intros Hx Hy Hi%elem_of_range. unfold poincare_body, lorenz_crossing_at, lorenz_cross.
  rewrite !(lookup_in_range zs), !(lookup_in_range xs), !(lookup_in_range ys) by lia.
  cbn [mbind option_bind]. by destruct (_ && _).
Qed.

Lemma compute_poincare_crossings_closed (xs ys zs : list F) (z_section : F) :
  length xs = length zs → length ys = length zs →
  compute_poincare_crossings xs ys zs z_section =
    Some (lorenz_cross xs ys zs z_section <$>
          List.filter (lorenz_crossing_at zs z_section) (range 1 (length zs))).
Proof.
  intros Hx Hy. unfold compute_poincare_crossings.
  rewrite (for_loop_collect _ (lorenz_crossing_at zs z_section)
             (lorenz_cross xs ys zs z_section)); [done|].
  intros s i Hi. by apply poincare_body_in_range.
Qed.

End Lorenz.

(** C9, as the specification words it, fails on floats: with
    zs = [-2^-1074, 4] and z_section = 0 a crossing is registered and
    the denominator is positive, but the quotient 2^-1074 / 4 rounds to
    0, so [t_frac] is 0.0, outside (0, 1], and the recorded point is the
    lower sample. *)
Lemma poincare_crossing_t_frac_zero :
  lorenz_crossing_at (A:=binary64) [(-0x1p-1074)%float; 4%float] 0%float 1 = true
  ∧ PrimFloat.ltb 0 (PrimFloat.sub 4 (-0x1p-1074)) = true
  ∧ lorenz_t_frac (A:=binary64) (-0x1p-1074)%float 0%float 4%float = 0%float
  ∧ PrimFloat.ltb 0 (lorenz_t_frac (A:=binary64) (-0x1p-1074)%float 0%float 4%float)
    = false
  ∧ compute_poincare_crossings (A:=binary64)
      [1; 2]%float [3; 5]%float [(-0x1p-1074)%float; 4%float] 0%float
    = Some [(1, 3, 0)%float].
Proof. vm_compute. done. Qed.

Section LorenzExact.
Local Open Scope R_scope.

(** Between two samples that bracket the section from below the
    interpolation fraction is a quotient of a positive number by a
    positive number that is at least as large. *)
Lemma lorenz_t_frac_bounds (z_prev z_section z_i : R) :
  z_prev < z_section <= z_i →
  0 < z_i - z_prev ∧ 0 < lorenz_t_frac (A:=exact) z_prev z_section z_i <= 1.
Proof.
  intros [Hlo Hhi]. assert (Hd : 0 < z_i - z_prev) by lra.
  split; [done|]. unfold lorenz_t_frac. exact_arith. split.
  - apply Rdiv_lt_0_compat; lra.
  - apply (Rmult_le_reg_r (z_i - z_prev)); [done|].
    unfold Rdiv. rewrite Rmult_assoc, Rinv_l; lra.
Qed.

(** C9 (amended): in exact arithmetic, on sample arrays of one length,
    [compute_poincare_crossings] returns (no read is out of range) the
    interpolated points of the
    indices [i] with [zs[i-1] < z_section <= zs[i]]; at each such index
    the denominator [zs[i] - zs[i-1]] of the unguarded division is
    strictly positive and [t_frac] lies in (0, 1].  (In binary64 the
    quotient can round to 0, as the evaluation above shows.) *)
Theorem poincare_crossings_t_frac (xs ys zs : list R) (z_section : R) :
  length xs = length zs → length ys = length zs →
  compute_poincare_crossings (A:=exact) xs ys zs z_section =
    Some (lorenz_cross xs ys zs z_section <$>
          List.filter (lorenz_crossing_at zs z_section) (range 1 (length zs)))
  ∧ ∀ i : nat,
      lorenz_crossing_at (A:=exact) zs z_section i = true →
      zs !!! (i - 1)%nat < z_section <= zs !!! i
      ∧ 0 < zs !!! i - zs !!! (i - 1)%nat
      ∧ 0 < lorenz_t_frac (A:=exact) (zs !!! (i - 1)%nat) z_section (zs !!! i) <= 1.
Proof.
  intros Hx Hy. split; [by apply compute_poincare_crossings_closed|].
  intros i Hc. unfold lorenz_crossing_at in Hc. exact_arith.
  apply andb_prop in Hc as [Hlo%R_ltb_true Hhi%R_leb_true].
  split; [done|]. by apply lorenz_t_frac_bounds.
Qed.

Lemma poincare_crossings_t_frac_witness :
  length [1; 3] = length [0; 4] ∧ length [2; 6] = length [0; 4]
  ∧ lorenz_crossing_at (A:=exact) [0; 4] 1 1 = true
  ∧ 0 < lorenz_t_frac (A:=exact) 0 1 4 <= 1.
Proof.
  assert (Hc : lorenz_crossing_at (A:=exact) [0; 4] 1 1 = true).
  { unfold lorenz_crossing_at. cbn. apply andb_true_intro.
    split; [apply R_ltb_true | apply R_leb_true]; lra. }
  split; [reflexivity|]. split; [reflexivity|]. split; [done|].
  apply (proj2 (poincare_crossings_t_frac [1; 3] [2; 6] [0; 4] 1 eq_refl eq_refl)
           1%nat Hc).
Defined.

End LorenzExact.

(** ** The Rössler section *)

Section Rossler.
Context {F : Type} {A : Arith F}.
Local Open Scope py_scope.

Lemma rossler_crossing_registered direction (values : list F) section_value i :
  rossler_crossing direction (values !!! (i - 1)%nat) section_value (values !!! i)
  = crossing_registered direction values section_value i.
Proof.
  unfold rossler_crossing, crossing_registered. cbv zeta.
  destruct (String.eqb_spec direction "positive") as [->|Hne].
  - by rewrite bool_decide_eq_true_2.
  - by rewrite bool_decide_eq_false_2.
Qed.

Lemma rossler_body_in_range (xs ys zs values : list F) section_value direction
    (s : list (F * F * F)) (i : nat) :
  length xs = length values → length ys = length values → length zs = length values →
  i ∈ range 1 (length values) →
  rossler_body xs ys zs values section_value direction s i =
    Some (if crossing_registered direction values section_value i
          then s ++ [crossing_state xs ys zs values section_value i] else s).
Proof.
  intros Hx Hy Hz Hi%elem_of_range. unfold rossler_body.
  rewrite !(lookup_in_range values) by lia. cbn [mbind option_bind]. cbv zeta.
  rewrite rossler_crossing_registered.
  destruct (crossing_registered _ _ _ _); [|done].
  rewrite !(lookup_in_range xs), !(lookup_in_range ys), !(lookup_in_range zs) by lia.
  done.
Qed.

Lemma rossler_values_length (xs ys zs : list F) section_axis :
  length xs = length ys → length ys = length zs →
  length (rossler_values xs ys zs section_axis) = length xs.
Proof.
  intros Hxy Hyz. unfold rossler_values.
  destruct (String.eqb _ _); [|destruct (String.eqb _ _)]; congruence.
Qed.

End Rossler.

(** C6: on sample arrays of one length, [compute_rossler_poincare]
    registers a crossing between samples [i - 1] and [i] exactly when the
    crossing rule holds there (upward with the upper sample included for
    direction 'positive', downward with the lower sample included
    otherwise); it records the component-wise linear interpolation of the
    two bracketing samples, with the fraction
    (section_value - v[i-1]) / (v[i] - v[i-1]), or 0.5 when the
    denominator's magnitude is not above 1e-10; and it lists one state
    per crossing, in increasing index order. *)
Theorem compute_rossler_poincare_crossings {F : Type} {A : Arith F}
    (xs ys zs : list F) (section_axis : string) (section_value : F)
    (direction : string) :
  length xs = length ys → length ys = length zs →
  let values := rossler_values xs ys zs section_axis in
  let hits :=
    List.filter (crossing_registered direction values section_value)
                (range 1 (length values)) in
  compute_rossler_poincare xs ys zs section_axis section_value direction
    = Some (crossing_state xs ys zs values section_value <$> hits)
  ∧ StronglySorted lt hits
  ∧ ∀ i : nat,
      i ∈ hits ↔
      (1 ≤ i < length values)%nat
      ∧ crossing_registered direction values section_value i = true.
Proof.
  intros Hxy Hyz values hits. split; [|split].
  - unfold compute_rossler_poincare. fold values.
    pose proof (rossler_values_length xs ys zs section_axis Hxy Hyz) as Hv.
    fold values in Hv.
    rewrite (for_loop_collect _ (crossing_registered direction values section_value)
               (crossing_state xs ys zs values section_value)); [done|].
    intros s i Hi. apply rossler_body_in_range; congruence.
  - apply filter_range_sorted.
  - intros i. apply elem_of_filter_range.
Qed.

Lemma compute_rossler_poincare_crossings_witness :
  length [1; 2; 3]%float = length [-1; 1; -1]%float
  ∧ length [-1; 1; -1]%float = length [5; 6; 7]%float
  ∧ compute_rossler_poincare (A:=binary64)
      [1; 2; 3]%float [-1; 1; -1]%float [5; 6; 7]%float "y" 0%float "positive"
    = Some [(1.5, 0, 5.5)%float]
  ∧ compute_rossler_poincare (A:=binary64)
      [1; 2; 3]%float [-1; 1; -1]%float [5; 6; 7]%float "y" 0%float "negative"
    = Some [(2.5, 0, 6.5)%float].
Proof.
  split; [reflexivity|]. split; [reflexivity|]. split.
  - etrans;
      [apply (compute_rossler_poincare_crossings (A:=binary64)
                [1; 2; 3]%float [-1; 1; -1]%float [5; 6; 7]%float
                "y" 0%float "positive"); reflexivity|].
    vm_compute. reflexivity.
  - etrans;
      [apply (compute_rossler_poincare_crossings (A:=binary64)
                [1; 2; 3]%float [-1; 1; -1]%float [5; 6; 7]%float
                "y" 0%float "negative"); reflexivity|].
    vm_compute. reflexivity.
Defined.

(** ** The whole Van der Pol post-processing *)

(** On sample arrays of one length [compute_vdp_poincare_map] raises no
    IndexError: it returns the crossings and their return map. *)
Lemma compute_vdp_poincare_map_returns {F : Type} {A : Arith F} (xs ys : list F) :
  length xs = length ys →
  ∃ crossings pairs,
    compute_vdp_poincare_map xs ys = Some (crossings, pairs)
    ∧ vdp_crossings xs ys = Some crossings
    ∧ return_map crossings = Some pairs.
Proof.
  intros Hlen. unfold compute_vdp_poincare_map.
  rewrite (vdp_crossings_closed xs ys Hlen). cbn [mbind option_bind].
  rewrite return_map_closed. cbn [mbind option_bind].
  do 2 eexists. split; [reflexivity|]. split; [reflexivity|].
  apply return_map_closed.
Qed.

(** ** Remarks on binary64 *)

(** An ordinary diverging orbit: from the seed (10, 0) at a = 1.4,
    b = 0.3 the ninth application of the map squares a number near
    -7e292 and Python raises OverflowError, so a call with [n_iter = 9]
    returns nothing, while a call with [n_iter = 8] returns nine finite
    states.  An infinite abscissa is squared without an exception. *)
Example iterate_henon_overflow_binary64 :
  iterate_henon (A:=binary64) (lit 1.4) (lit 0.3) 10%float 0%float 9 0 = None
  ∧ (∃ xs ys : list float,
        iterate_henon (A:=binary64) (lit 1.4) (lit 0.3) 10%float 0%float 8 0
          = Some (xs, ys)
        ∧ length xs = 9%nat
        ∧ forallb PrimFloat.is_finite xs = true)
  ∧ py_pow2 PrimFloat.infinity = Some PrimFloat.infinity.
Proof.
  split; [vm_compute; reflexivity|]. split; [|vm_compute; reflexivity].
  vm_compute. do 2 eexists. repeat split.
Qed.

(** The literals of the source, as [lit] reads them in binary64, are the
    floats Python's parser produces for 1e-10, 0.5, 1.4, 0.3 and 6.09. *)
Example lit_binary64 :
  lit (Arith:=binary64) 1e-10 = 0x1.b7cdfd9d7bdbbp-34%float
  ∧ lit (Arith:=binary64) 0.5 = 0x1p-1%float
  ∧ lit (Arith:=binary64) 1.4 = 0x1.6666666666666p+0%float
  ∧ lit (Arith:=binary64) 0.3 = 0x1.3333333333333p-2%float
  ∧ lit (Arith:=binary64) 6.09 = 0x1.85c28f5c28f5cp+2%float.
Proof. vm_compute. done. Qed.

(** The Rössler detector in binary64: a step of 2^-39 across the section
    is below the guard and takes the fraction 0.5; an axis other than 'x'
    and 'y' selects [zs]; a coordinate array shorter than [values] makes
    the read at a crossing fail, as IndexError does. *)
Example compute_rossler_poincare_binary64 :
  compute_rossler_poincare (A:=binary64)
    [1; 3]%float [-0x1p-40; 0x1p-40]%float [5; 9]%float "y" 0%float "positive"
  = Some [(2, 0, 7)%float]
  ∧ compute_rossler_poincare (A:=binary64)
      [1; 3]%float [-1; 3]%float [5; 9]%float "q" 6%float "positive"
    = Some [(1.5, 0, 6)%float]
  ∧ compute_rossler_poincare (A:=binary64)
      [1; 3]%float [(-1)%float] [5; 9]%float "x" 2%float "positive"
    = None.
Proof. vm_compute. done. Qed.

(** * Further properties *)

(** ** Equilibria of the vector fields, in exact arithmetic *)

Section VectorFieldProperties.
Local Open Scope R_scope.

(** X1: whatever [mu] is, the Van der Pol field vanishes at the origin
    and nowhere else. *)
Theorem van_der_pol_equilibrium (t mu x y : R) :
  van_der_pol (A:=exact) t (x, y) mu = (0, 0) ↔ x = 0 ∧ y = 0.
Proof.
  unfold van_der_pol. exact_arith. rewrite pair_equal_spec. split.
  - intros [Hy Hx]. subst y. split; [lra | done].
  - intros [-> ->]. split; lra.
Qed.

(** X2: for sigma <> 0 and beta > 0 the zeros of the Lorenz field are
    exactly the points [get_equilibria] lists: the origin alone for
    rho <= 1, and the origin with C+ and C- for rho > 1. *)
Theorem lorenz_equilibria (t sigma rho beta : R) (p : R * R * R) :
  sigma ≠ 0 → 0 < beta →
  lorenz (A:=exact) t p sigma rho beta = (0, 0, 0) ↔ p ∈ get_equilibria (A:=exact) rho beta.
Proof.
  intros Hs Hb. destruct p as [[x y] z].
  unfold lorenz, get_equilibria. exact_arith.
  rewrite !pair_equal_spec.
  replace (0 * / 1) with 0 by lra. replace (1 * / 1) with 1 by lra.
  R_case_ltb 1 rho.
  - assert (HD : 0 <= beta * (rho - 1)) by nra.
    pose proof (sqrt_sqrt _ HD) as Hq.
    assert (Hpos : 0 < sqrt (beta * (rho - 1))) by (apply sqrt_lt_R0; nra).
    set (s := sqrt (beta * (rho - 1))) in *.
    rewrite !elem_of_cons, elem_of_nil, !pair_equal_spec. split.
    + intros [[Hx Hy] Hz].
      assert (Hxy : y = x) by nra. subst y.
      destruct (Req_dec x 0) as [->|Hx0].
      * left. repeat split; nra.
      * assert (Hzr : z = rho - 1) by nra. subst z.
        assert (Hsq : (x - s) * (x + s) = 0) by nra.
        apply Rmult_integral in Hsq as [Hc|Hc].
        -- right; left. repeat split; lra.
        -- right; right; left. repeat split; lra.
    + intros [[[-> ->] ->]|[[[-> ->] ->]|[[[-> ->] ->]|[]]]]; repeat split; nra.
  - rewrite list_elem_of_singleton, !pair_equal_spec. split.
    + intros [[Hx Hy] Hz].
      assert (Hxy : y = x) by nra. subst y.
      destruct (Req_dec x 0) as [->|Hx0]; [repeat split; nra|].
      assert (Hzr : z = rho - 1) by nra. subst z.
      assert (0 < x * x) by nra. nra.
    + intros [[-> ->] ->]. repeat split; lra.
Qed.

Lemma lorenz_equilibria_witness :
  10 ≠ 0 ∧ 0 < 8 / 3
  ∧ lorenz (A:=exact) 0 (0, 0, 0) 10 28 (8 / 3) = (0, 0, 0).
Proof.
  assert (H1 : 10 ≠ 0) by lra. assert (H2 : 0 < 8 / 3) by lra.
  split; [done|]. split; [done|].
  apply (lorenz_equilibria 0 10 28 (8 / 3) (0, 0, 0) H1 H2).
  unfold get_equilibria. exact_arith. replace (0 * / 1) with 0 by lra.
  destruct (R_ltb _ _); constructor.
Defined.

(** X3: the Cartesian Hopf field is the polar normal form of its
    docstring: the radial part is r^2 (mu - r^2) (that is
    dr/dt = mu r - r^3) and the angular part is r^2 (dtheta/dt = 1). *)
Theorem hopf_system_polar (t mu x y : R) :
  let d := hopf_system (A:=exact) t (x, y) mu in
  x * d.1 + y * d.2 = (x ^ 2 + y ^ 2) * (mu - (x ^ 2 + y ^ 2))
  ∧ x * d.2 - y * d.1 = x ^ 2 + y ^ 2.
Proof. unfold hopf_system. exact_arith. cbn [fst snd]. split; ring. Qed.

(** X4: the Hopf field vanishes only at the origin, and on the circle
    x^2 + y^2 = mu (the limit cycle r = sqrt mu the scene draws) it is
    the rotation (-y, x). *)
Theorem hopf_system_limit_cycle (t mu x y : R) :
  (hopf_system (A:=exact) t (x, y) mu = (0, 0) ↔ x = 0 ∧ y = 0)
  ∧ (x ^ 2 + y ^ 2 = mu → hopf_system (A:=exact) t (x, y) mu = (- y, x)).
Proof.
  split.
  - pose proof (hopf_system_polar t mu x y) as [_ Ha]. cbv zeta in Ha. split.
    + intros H0. rewrite H0 in Ha. cbn [fst snd] in Ha. split; nra.
    + intros [-> ->]. unfold hopf_system. exact_arith. f_equal; ring.
  - intros Hr. unfold hopf_system. exact_arith.
    replace (x * x + y * y) with mu by nra. f_equal; ring.
Qed.

(** X5: the zeros of the Rössler field are the points (-a y, y, -y) with
    y a root of a y^2 + c y + b. *)
Theorem rossler_system_equilibria (t a b c x y z : R) :
  rossler_system (A:=exact) t (x, y, z) a b c = (0, 0, 0)
  ↔ x = - a * y ∧ z = - y ∧ a * y ^ 2 + c * y + b = 0.
Proof.
  unfold rossler_system. exact_arith. rewrite !pair_equal_spec. split.
  - intros [[H1 H2] H3]. assert (z = - y) by lra. subst z.
    assert (x = - a * y) by lra. subst x. repeat split; nra.
  - intros (-> & -> & H). repeat split; nra.
Qed.

End VectorFieldProperties.

(** ** The pendulum, in exact arithmetic *)

(** Unfold both interfaces at [R]. *)
Ltac exact_trig_arith :=
  exact_arith; cbn [fsin fcos fpi exact_trig] in *.

Section PendulumProperties.
Local Open Scope R_scope.

Lemma pendulum_energy_exact (theta omega g : R) :
  pendulum_energy (A:=exact) theta omega g = omega ^ 2 / 2 - g * cos theta.
Proof. unfold pendulum_energy. exact_trig_arith. lra. Qed.

(** X6: for g/L <> 0 the pendulum field vanishes exactly at the states
    (theta, 0) with sin theta = 0; the angles the scene marks as centers
    and saddles, 0, +-pi and +-2 pi, are such states. *)
Theorem pendulum_equilibria (t g d theta omega : R) :
  g ≠ 0 →
  (pendulum_system (A:=exact) t (theta, omega) g d = (0, 0) ↔ omega = 0 ∧ sin theta = 0)
  ∧ Forall (λ theta0, pendulum_system (A:=exact) t (theta0, 0) g d = (0, 0))
           [- (2 * PI); - PI; 0; PI; 2 * PI].
Proof.
  intros Hg. split.
  - unfold pendulum_system. exact_trig_arith. rewrite pair_equal_spec. split.
    + intros [-> H]. split; [done|]. nra.
    + intros [-> H]. rewrite H. split; lra.
  - assert (Hz : ∀ th, sin th = 0 → pendulum_system (A:=exact) t (th, 0) g d = (0, 0)).
    { intros th H. unfold pendulum_system. exact_trig_arith. rewrite H. f_equal. lra. }
    repeat constructor; apply Hz.
    + rewrite sin_neg, sin_2PI. lra.
    + rewrite sin_neg, sin_PI. lra.
    + apply sin_0.
    + apply sin_PI.
    + apply sin_2PI.
Qed.

Lemma pendulum_equilibria_witness :
  1 ≠ 0 ∧ pendulum_system (A:=exact) 0 (PI, 0) 1 0 = (0, 0).
Proof.
  assert (H1 : 1 ≠ 0) by lra. split; [done|].
  apply (proj1 (pendulum_equilibria 0 1 0 PI 0 H1)). split; [done | apply sin_PI].
Defined.

(** X7: the angular velocity the scene chooses at theta = 0 for an orbit
    of energy E, with either sign, has energy E, whenever E + g/L is not
    negative. *)
Theorem omega_cross_energy (E g : R) :
  0 <= E + g →
  pendulum_energy (A:=exact) 0 (omega_cross (A:=exact) E g) g = E
  ∧ pendulum_energy (A:=exact) 0 (- omega_cross (A:=exact) E g) g = E.
Proof.
  intros H. rewrite !pendulum_energy_exact, cos_0.
  unfold omega_cross. exact_trig_arith.
  assert (Hq : 0 <= 2 * / 1 * (E + g)) by lra.
  pose proof (sqrt_sqrt _ Hq) as Hs.
  set (s := sqrt (2 * / 1 * (E + g))) in *. split; nra.
Qed.

Lemma omega_cross_energy_witness :
  0 <= 0.3 + 1 ∧ pendulum_energy (A:=exact) 0 (omega_cross (A:=exact) 0.3 1) 1 = 0.3.
Proof.
  assert (H : 0 <= 0.3 + 1) by lra. split; [done|].
  apply (omega_cross_energy 0.3 1 H).
Defined.

(** X8: for g/L >= 0 both branches of the separatrix the scene draws lie
    on the energy level of the inverted pendulum (theta = pi at rest),
    which is g/L. *)
Theorem separatrix_energy (g theta : R) :
  0 <= g →
  pendulum_energy (A:=exact) theta (sep_omega_pos (A:=exact) g theta) g = g
  ∧ pendulum_energy (A:=exact) theta (sep_omega_neg (A:=exact) g theta) g = g
  ∧ pendulum_energy (A:=exact) PI 0 g = g.
Proof.
  intros Hg. rewrite !pendulum_energy_exact, cos_PI.
  unfold sep_omega_neg, sep_omega_pos. exact_trig_arith.
  pose proof (COS_bound theta) as [Hc _].
  assert (Hq : 0 <= 2 * / 1 * g * (1 * / 1 + cos theta)) by nra.
  pose proof (sqrt_sqrt _ Hq) as Hs.
  set (s := sqrt (2 * / 1 * g * (1 * / 1 + cos theta))) in *.
  repeat split; nra.
Qed.

Lemma separatrix_energy_witness :
  0 <= 1 ∧ pendulum_energy (A:=exact) 0 (sep_omega_pos (A:=exact) 1 0) 1 = 1.
Proof.
  assert (H : 0 <= 1) by lra. split; [done|].
  apply (separatrix_energy 1 0 H).
Defined.

(** X9: along the pendulum field the energy changes at the rate
    -damping * omega^2: the derivative at s = 0 of the energy along the
    line through (theta, omega) with the field's direction.  With the
    default damping 0 the energy is conserved. *)
Theorem pendulum_energy_rate (t g d theta omega : R) :
  let v := pendulum_system (A:=exact) t (theta, omega) g d in
  derivable_pt_lim
    (λ s, pendulum_energy (A:=exact) (theta + v.1 * s) (omega + v.2 * s) g)
    0 (- d * omega ^ 2).
Proof.
  cbv zeta. unfold pendulum_system. cbn [fst snd]. exact_trig_arith.
  set (dw := - g * sin theta - d * omega).
  assert (Hth : derivable_pt_lim (fct_cte theta + mult_real_fct omega Ranalysis1.id)%F 0 (0 + omega * 1)).
  { apply derivable_pt_lim_plus; [apply derivable_pt_lim_const|].
    apply derivable_pt_lim_scal, derivable_pt_lim_id. }
  assert (Hw : derivable_pt_lim (fct_cte omega + mult_real_fct dw Ranalysis1.id)%F 0 (0 + dw * 1)).
  { apply derivable_pt_lim_plus; [apply derivable_pt_lim_const|].
    apply derivable_pt_lim_scal, derivable_pt_lim_id. }
  pose proof (derivable_pt_lim_mult _ _ _ _ _ Hw Hw) as Hsq.
  pose proof (derivable_pt_lim_scal _ (/ 2) _ _ Hsq) as Hkin.
  pose proof (derivable_pt_lim_comp _ cos 0 _ _ Hth
                (derivable_pt_lim_cos _)) as Hcos.
  pose proof (derivable_pt_lim_scal _ g _ _ Hcos) as Hpot.
  pose proof (derivable_pt_lim_minus _ _ _ _ _ Hkin Hpot) as HE.
  unfold pendulum_energy. exact_trig_arith.
  match type of HE with derivable_pt_lim _ _ ?l =>
    replace l with (- d * omega ^ 2) in HE
      by (unfold plus_fct, mult_real_fct, fct_cte, Ranalysis1.id, dw;
          replace (theta + omega * 0) with theta by ring; field)
  end.
  eapply derivable_pt_lim_ext; [|exact HE].
  intros s. unfold minus_fct, mult_real_fct, mult_fct, plus_fct, comp, fct_cte,
    Ranalysis1.id, dw.
  lra.
Qed.

End PendulumProperties.

(** ** Jacobian eigenvalues and labels of the Hénon map, in exact arithmetic *)

Section HenonEigenvalues.
Local Open Scope R_scope.

Lemma Rabs_gt_1 (l : R) : Rabs l > 1 ↔ l > 1 ∨ l < -1.
Proof. unfold Rabs. destruct (Rcase_abs l); lra. Qed.

Lemma henon_jacobian_eigenvalues_real (x a b : R) :
  0 <= a ^ 2 * x ^ 2 + b →
  henon_jacobian_eigenvalues (A:=exact) x a b =
    (real_eig ((- 2 * a * x + sqrt (4 * (a ^ 2 * x ^ 2 + b))) / 2),
     real_eig ((- 2 * a * x - sqrt (4 * (a ^ 2 * x ^ 2 + b))) / 2)).
Proof.
  intros HD. unfold henon_jacobian_eigenvalues. exact_arith.
  replace (-2 * / 1 * a * x * (-2 * / 1 * a * x) - 4 * / 1 * - b)
    with (4 * (a ^ 2 * x ^ 2 + b)) by field.
  replace (R_leb (0 * / 1) (4 * (a ^ 2 * x ^ 2 + b))) with true.
  2:{ symmetry. apply R_leb_true. lra. }
  do 2 f_equal; field.
Qed.

Lemma henon_jacobian_eigenvalues_complex (x a b : R) :
  a ^ 2 * x ^ 2 + b < 0 →
  henon_jacobian_eigenvalues (A:=exact) x a b =
    (complex_eig (- a * x) (sqrt (- (4 * (a ^ 2 * x ^ 2 + b))) / 2),
     complex_eig (- a * x) (- (sqrt (- (4 * (a ^ 2 * x ^ 2 + b))) / 2))).
Proof.
  intros HD. unfold henon_jacobian_eigenvalues. exact_arith.
  replace (-2 * / 1 * a * x * (-2 * / 1 * a * x) - 4 * / 1 * - b)
    with (4 * (a ^ 2 * x ^ 2 + b)) by field.
  replace (R_leb (0 * / 1) (4 * (a ^ 2 * x ^ 2 + b))) with false.
  2:{ symmetry. apply R_leb_false. lra. }
  replace (-2 * / 1 * a * x / (2 * / 1)) with (- a * x) by field.
  replace (2 * / 1) with 2 by field. done.
Qed.

(** X10: where a^2 x^2 + b >= 0 the two eigenvalues returned are real,
    the larger first; their sum is the trace -2 a x and their product
    the determinant -b of the Jacobian [[-2 a x, 1], [b, 0]]. *)
Theorem henon_jacobian_eigenvalues_trace_det (x a b : R) :
  0 <= a ^ 2 * x ^ 2 + b →
  ∃ l1 l2 : R,
    henon_jacobian_eigenvalues (A:=exact) x a b = (real_eig l1, real_eig l2)
    ∧ l1 + l2 = - 2 * a * x ∧ l1 * l2 = - b ∧ l2 <= l1.
Proof.
  intros HD. eexists _, _. split; [by apply henon_jacobian_eigenvalues_real|].
  assert (Hq : 0 <= 4 * (a ^ 2 * x ^ 2 + b)) by lra.
  pose proof (sqrt_sqrt _ Hq) as Hs. pose proof (sqrt_pos (4 * (a ^ 2 * x ^ 2 + b))) as Hp.
  set (r := sqrt (4 * (a ^ 2 * x ^ 2 + b))) in *.
  split; [field|]. split; [nra | lra].
Qed.

Lemma henon_jacobian_eigenvalues_trace_det_witness :
  0 <= 1 ^ 2 * (-5 / 2) ^ 2 + -6
  ∧ ∃ l1 l2 : R,
      henon_jacobian_eigenvalues (A:=exact) (-5 / 2) 1 (-6) = (real_eig l1, real_eig l2)
      ∧ l1 + l2 = - 2 * 1 * (-5 / 2) ∧ l1 * l2 = - -6 ∧ l2 <= l1.
Proof.
  assert (H : 0 <= 1 ^ 2 * (-5 / 2) ^ 2 + -6) by lra. split; [done|].
  apply (henon_jacobian_eigenvalues_trace_det (-5 / 2) 1 (-6) H).
Defined.

(** X11: the label of a point is "spiral" exactly when a^2 x^2 + b < 0;
    so for b >= 0, as in the scene (b = 0.3), no point is ever labelled
    "spiral". *)
Theorem eigen_label_spiral (x a b : R) :
  (eigen_label (A:=exact) x a b = "spiral" ↔ a ^ 2 * x ^ 2 + b < 0)
  ∧ (0 <= b → eigen_label (A:=exact) x a b ≠ "spiral").
Proof.
  assert (Hiff : eigen_label (A:=exact) x a b = "spiral" ↔ a ^ 2 * x ^ 2 + b < 0).
  { unfold eigen_label. destruct (Rlt_le_dec (a ^ 2 * x ^ 2 + b) 0) as [Hn|Hp].
    - rewrite henon_jacobian_eigenvalues_complex by done. by cbn.
    - rewrite henon_jacobian_eigenvalues_real by done. rewrite stab_str_real.
      split; [by destruct (_ || _) | lra]. }
  split; [done|]. intros Hb. rewrite Hiff.
  pose proof (pow2_ge_0 (a * x)). nra.
Qed.

(** X12: where a^2 x^2 + b < 0 the two eigenvalues returned are a
    conjugate pair with real part -a x, positive imaginary part first,
    and squared modulus -b, the determinant. *)
Theorem henon_jacobian_eigenvalues_conjugate (x a b : R) :
  a ^ 2 * x ^ 2 + b < 0 →
  ∃ re im : R,
    henon_jacobian_eigenvalues (A:=exact) x a b = (complex_eig re im, complex_eig re (- im))
    ∧ re = - a * x ∧ 0 < im ∧ re ^ 2 + im ^ 2 = - b.
Proof.
  intros HD. eexists _, _. split; [by apply henon_jacobian_eigenvalues_complex|].
  assert (Hq : 0 < - (4 * (a ^ 2 * x ^ 2 + b))) by lra.
  pose proof (sqrt_sqrt _ (Rlt_le _ _ Hq)) as Hs. pose proof (sqrt_lt_R0 _ Hq) as Hp.
  set (r := sqrt (- (4 * (a ^ 2 * x ^ 2 + b)))) in *.
  split; [done|]. split; [lra | nra].
Qed.

Lemma henon_jacobian_eigenvalues_conjugate_witness :
  1 ^ 2 * 0 ^ 2 + -1 < 0
  ∧ ∃ re im : R,
      henon_jacobian_eigenvalues (A:=exact) 0 1 (-1) = (complex_eig re im, complex_eig re (- im))
      ∧ re = - 1 * 0 ∧ 0 < im ∧ re ^ 2 + im ^ 2 = - -1.
Proof.
  assert (H : 1 ^ 2 * 0 ^ 2 + -1 < 0) by lra. split; [done|].
  apply (henon_jacobian_eigenvalues_conjugate 0 1 (-1) H).
Defined.

End HenonEigenvalues.

Section HenonLabels.
Local Open Scope R_scope.

(** With real eigenvalues l2 <= l1 of sum tr and product -b, one of them
    leaves [-1, 1] exactly when the characteristic polynomial is
    negative at 1 or at -1, provided 0 <= b <= 1. *)
Lemma real_pair_outside_unit (tr b l1 l2 : R) :
  0 <= b <= 1 → l1 + l2 = tr → l1 * l2 = - b → l2 <= l1 →
  (Rabs l1 > 1 ∨ Rabs l2 > 1) ↔ Rabs tr > 1 - b.
Proof.
  intros Hb Hsum Hprod Hord. rewrite !Rabs_gt_1.
  assert (Hl1 : 0 <= l1) by nra. assert (Hl2 : l2 <= 0) by nra.
  unfold Rabs. destruct (Rcase_abs tr) as [Htr|Htr]; split.
  - intros [[H|H]|[H|H]]; nra.
  - intros H. right. right. nra.
  - intros [[H|H]|[H|H]]; nra.
  - intros H. left. left. nra.
Qed.

(** X13: for 0 <= b <= 1 the label of a point is "saddle" when
    |2 a x| > 1 - b and "stable" otherwise. *)
Theorem eigen_label_criterion (x a b : R) :
  0 <= b <= 1 →
  eigen_label (A:=exact) x a b
  = if Rlt_dec (1 - b) (Rabs (2 * a * x)) then "saddle" else "stable".
Proof.
  intros Hb.
  assert (HD : 0 <= a ^ 2 * x ^ 2 + b) by (pose proof (pow2_ge_0 (a * x)); nra).
  destruct (henon_jacobian_eigenvalues_trace_det x a b HD) as (l1 & l2 & He & Hs & Hp & Ho).
  unfold eigen_label. rewrite He.
  pose proof (real_pair_outside_unit _ b l1 l2 Hb Hs Hp Ho) as Hiff.
  replace (Rabs (- 2 * a * x)) with (Rabs (2 * a * x)) in Hiff
    by (rewrite <- Rabs_Ropp; f_equal; ring).
  destruct (Rlt_dec (1 - b) (Rabs (2 * a * x))) as [Hgt|Hle].
  - apply stab_str_real_saddle, Hiff. lra.
  - apply stab_str_real_stable.
    destruct (Rle_dec (Rabs l1) 1) as [H1|H1], (Rle_dec (Rabs l2) 1) as [H2|H2];
      try done; exfalso; apply Hle, Rgt_lt, Hiff; lra.
Qed.

Lemma eigen_label_criterion_witness :
  0 <= 0 <= 1 ∧ eigen_label (A:=exact) (-1 / 2) 1 0 = "stable".
Proof.
  assert (H : 0 <= 0 <= 1) by lra. split; [done|].
  rewrite (eigen_label_criterion (-1 / 2) 1 0 H).
  destruct (Rlt_dec _ _) as [Hlt|]; [|done].
  exfalso. revert Hlt. unfold Rabs. destruct (Rcase_abs _); lra.
Defined.

Lemma fixed_point_labels_exact (a b : R) :
  0 <= (1 - b) ^ 2 + 4 * a →
  fixed_point_labels (A:=exact) a b
  = Some [eigen_label (A:=exact) (root_plus a b) a b;
          eigen_label (A:=exact) (root_minus a b) a b].
Proof.
  intros HD. unfold fixed_point_labels. by rewrite henon_fixed_points_exact.
Qed.

(** At the second fixed point the Jacobian has two real eigenvalues, the
    larger of which exceeds 1. *)
Lemma root_minus_eigenvalue (a b : R) :
  0 < a →
  ∃ l1 l2 : R,
    henon_jacobian_eigenvalues (A:=exact) (root_minus a b) a b
      = (real_eig l1, real_eig l2)
    ∧ l1 > 1.
Proof.
  intros Ha.
  assert (HD : 0 < (1 - b) ^ 2 + 4 * a) by (pose proof (pow2_ge_0 (1 - b)); lra).
  pose proof (sqrt_sqrt _ (Rlt_le _ _ HD)) as Hs. pose proof (sqrt_lt_R0 _ HD) as Hp.
  assert (Htr : - 2 * a * root_minus a b = (1 - b) + sqrt ((1 - b) ^ 2 + 4 * a)).
  { unfold root_minus. field. lra. }
  set (s := sqrt ((1 - b) ^ 2 + 4 * a)) in *.
  set (x := root_minus a b) in *.
  assert (HJ : 0 <= a ^ 2 * x ^ 2 + b) by nra.
  eexists _, _. split; [by apply henon_jacobian_eigenvalues_real|].
  assert (Hq : 0 <= 4 * (a ^ 2 * x ^ 2 + b)) by lra.
  pose proof (sqrt_sqrt _ Hq) as Hr.
  pose proof (sqrt_pos (4 * (a ^ 2 * x ^ 2 + b))) as Hr0.
  set (r := sqrt (4 * (a ^ 2 * x ^ 2 + b))) in *.
  assert (Hr2 : r * r = (- 2 * a * x) * (- 2 * a * x) + 4 * b) by (rewrite Hr; ring).
  rewrite Htr in Hr2 |- *.
  destruct (Rle_lt_dec r (2 - (1 - b + s))) as [Hle|Hgt]; [exfalso|lra].
  assert (r * r <= (2 - (1 - b + s)) * (2 - (1 - b + s))) by nra. nra.
Qed.

(** X14: for a > 0 and 0 <= b <= 1 the scene's loop labels the second
    fixed point "saddle", and the first one "saddle" when
    4 a > 3 (1 - b)^2 and "stable" otherwise; at a = 1.4, b = 0.3 both
    are saddles. *)
Theorem fixed_point_labels_threshold (a b : R) :
  0 < a → 0 <= b <= 1 →
  fixed_point_labels (A:=exact) a b
  = Some [if Rlt_dec (3 * (1 - b) ^ 2) (4 * a) then "saddle" else "stable"; "saddle"].
Proof.
  intros Ha Hb.
  assert (HD : 0 < (1 - b) ^ 2 + 4 * a) by (pose proof (pow2_ge_0 (1 - b)); lra).
  rewrite fixed_point_labels_exact, !eigen_label_criterion by lra.
  pose proof (sqrt_sqrt _ (Rlt_le _ _ HD)) as Hs. pose proof (sqrt_lt_R0 _ HD) as Hp.
  unfold root_plus, root_minus.
  set (s := sqrt ((1 - b) ^ 2 + 4 * a)) in *.
  replace (2 * a * ((- (1 - b) + s) / (2 * a))) with (s - (1 - b)) by (field; lra).
  replace (2 * a * ((- (1 - b) - s) / (2 * a))) with (- (s + (1 - b))) by (field; lra).
  assert (Hgt : 1 - b < s) by nra.
  rewrite Rabs_Ropp, (Rabs_pos_eq (s + (1 - b))), (Rabs_pos_eq (s - (1 - b))) by lra.
  f_equal. f_equal.
  - destruct (Rlt_dec (1 - b) (s - (1 - b))), (Rlt_dec (3 * (1 - b) ^ 2) (4 * a));
      try done; exfalso; nra.
  - destruct (Rlt_dec (1 - b) (s + (1 - b))); [done | exfalso; lra].
Qed.

Lemma fixed_point_labels_threshold_witness :
  0 < 1.4 ∧ 0 <= 0.3 <= 1
  ∧ fixed_point_labels (A:=exact) 1.4 0.3 = Some ["saddle"; "saddle"].
Proof.
  assert (Ha : 0 < 1.4) by lra. assert (Hb : 0 <= 0.3 <= 1) by lra.
  split; [done|]. split; [done|].
  rewrite (fixed_point_labels_threshold 1.4 0.3 Ha Hb).
  destruct (Rlt_dec _ _); [done | exfalso; lra].
Defined.

(** X15: for a > 0 and every b, [henon_fixed_points] returns two points,
    the Jacobian at the second one has a real eigenvalue above 1, and the
    scene's loop labels that point "saddle". *)
Theorem second_fixed_point_saddle (a b : R) :
  0 < a →
  ∃ (p1 p2 : R * R) (l1 l2 : R) (label1 : string),
    henon_fixed_points (A:=exact) a b = Some [p1; p2]
    ∧ henon_jacobian_eigenvalues (A:=exact) p2.1 a b = (real_eig l1, real_eig l2)
    ∧ l1 > 1
    ∧ fixed_point_labels (A:=exact) a b = Some [label1; "saddle"].
Proof.
  intros Ha.
  assert (HD : 0 < (1 - b) ^ 2 + 4 * a) by (pose proof (pow2_ge_0 (1 - b)); lra).
  destruct (root_minus_eigenvalue a b Ha) as (l1 & l2 & He & Hl1).
  eexists _, _, l1, l2, _.
  split; [apply henon_fixed_points_exact; lra|]. cbn [fst snd].
  split; [exact He|]. split; [done|].
  rewrite fixed_point_labels_exact by lra. do 3 f_equal.
  unfold eigen_label. rewrite He. apply stab_str_real_saddle. left.
  apply Rabs_gt_1. by left.
Qed.

Lemma second_fixed_point_saddle_witness :
  0 < 1
  ∧ ∃ (p1 p2 : R * R) (l1 l2 : R) (label1 : string),
      henon_fixed_points (A:=exact) 1 (-2) = Some [p1; p2]
      ∧ henon_jacobian_eigenvalues (A:=exact) p2.1 1 (-2) = (real_eig l1, real_eig l2)
      ∧ l1 > 1
      ∧ fixed_point_labels (A:=exact) 1 (-2) = Some [label1; "saddle"].
Proof.
  assert (Ha : 0 < 1) by lra. split; [done|].
  apply (second_fixed_point_saddle 1 (-2) Ha).
Defined.

End HenonLabels.

(** ** More on [iterate_henon] *)

Section HenonOrbit.
Context {F : Type} {A : Arith F} {P : PyPow F}.

(** X16: discarding a transient is dropping a prefix: a call with
    [n_transient = T] and [n_iter = R] fails exactly when the call with
    no transient and [T + R] iterations fails, and otherwise returns the
    arrays of that call without their first [T] entries. *)
Theorem iterate_henon_transient_drop (a b x0 y0 : F) (n_iter n_transient : nat) :
  iterate_henon a b x0 y0 n_iter n_transient
  = r ← iterate_henon a b x0 y0 (n_transient + n_iter) 0;
    Some (drop n_transient r.1, drop n_transient r.2).
Proof.
  destruct (iterate_henon a b x0 y0 n_iter n_transient) as [[xs ys]|] eqn:Hr.
  - destruct (iterate_henon_Some _ _ _ _ _ _ _ _ Hr) as (Hlx & Hly & Hk).
    destruct (iterate_henon a b x0 y0 (n_transient + n_iter) 0)
      as [[xs' ys']|] eqn:Hr'.
    2:{ apply iterate_henon_None in Hr'. cbn [Nat.add] in Hr'.
        destruct (Hk n_iter ltac:(lia)) as (x & y & Hit & _). congruence. }
    destruct (iterate_henon_Some _ _ _ _ _ _ _ _ Hr') as (Hlx' & Hly' & Hk').
    cbn [mbind option_bind fst snd]. do 2 f_equal.
    + apply list_eq. intros k. rewrite lookup_drop.
      destruct (decide (k ≤ n_iter)%nat) as [Hle|Hgt].
      * destruct (Hk k Hle) as (x & y & Hit & Hx & _).
        destruct (Hk' (n_transient + k)%nat ltac:(lia)) as (x' & y' & Hit' & Hx' & _).
        cbn [Nat.add] in Hit'. rewrite Hx, Hx'. congruence.
      * rewrite !lookup_ge_None_2 by lia. done.
    + apply list_eq. intros k. rewrite lookup_drop.
      destruct (decide (k ≤ n_iter)%nat) as [Hle|Hgt].
      * destruct (Hk k Hle) as (x & y & Hit & _ & Hy).
        destruct (Hk' (n_transient + k)%nat ltac:(lia)) as (x' & y' & Hit' & _ & Hy').
        cbn [Nat.add] in Hit'. rewrite Hy, Hy'. congruence.
      * rewrite !lookup_ge_None_2 by lia. done.
  - apply iterate_henon_None in Hr.
    assert (Hr' : iterate_henon a b x0 y0 (n_transient + n_iter) 0 = None)
      by (by apply iterate_henon_None).
    by rewrite Hr'.
Qed.

(** X17: the arrays a call returns are an orbit: each retained state but
    the last is followed by its image under [henon_map], which does not
    raise there. *)
Theorem iterate_henon_orbit (a b x0 y0 : F) (n_iter n_transient k : nat)
    (xs ys : list F) :
  iterate_henon a b x0 y0 n_iter n_transient = Some (xs, ys) →
  (k < n_iter)%nat →
  ∃ x y x' y' : F,
    xs !! k = Some x ∧ ys !! k = Some y
    ∧ xs !! S k = Some x' ∧ ys !! S k = Some y'
    ∧ henon_map x y a b = Some (x', y').
Proof.
  intros Hr Hk.
  destruct (iterate_henon_Some _ _ _ _ _ _ _ _ Hr) as (_ & _ & Hall).
  destruct (Hall k ltac:(lia)) as (x & y & Hit & Hx & Hy).
  destruct (Hall (S k) ltac:(lia)) as (x' & y' & Hit' & Hx' & Hy').
  exists x, y, x', y'. repeat (split; [done|]).
  replace (n_transient + S k)%nat with (S (n_transient + k)) in Hit' by lia.
  change (henon_iter a b (S (n_transient + k)) (x0, y0))
    with (henon_iter a b (n_transient + k) (x0, y0) ≫= henon_step a b) in Hit'.
  by rewrite Hit in Hit'.
Qed.

End HenonOrbit.

Lemma iterate_henon_orbit_witness :
  iterate_henon (A:=binary64) 1%float 0.5%float 0%float 0%float 1 0
    = Some ([0; 1]%float, [0; 0]%float)
  ∧ (0 < 1)%nat
  ∧ ∃ x y x' y' : float,
      [0; 1]%float !! 0%nat = Some x ∧ [0; 0]%float !! 0%nat = Some y
      ∧ [0; 1]%float !! 1%nat = Some x' ∧ [0; 0]%float !! 1%nat = Some y'
      ∧ henon_map (A:=binary64) x y 1%float 0.5%float = Some (x', y').
Proof.
  assert (Hr : iterate_henon (A:=binary64) 1%float 0.5%float 0%float 0%float 1 0
               = Some ([0; 1]%float, [0; 0]%float)) by (vm_compute; reflexivity).
  split; [done|]. split; [lia|].
  apply (iterate_henon_orbit (A:=binary64) 1%float 0.5%float 0%float 0%float 1 0 0
           _ _ Hr). lia.
Defined.

Section HenonFixedOrbit.
Local Open Scope R_scope.

Lemma henon_iter_fixed (a b : R) (p : R * R) (n : nat) :
  henon_map (A:=exact) p.1 p.2 a b = Some p →
  henon_iter (A:=exact) a b n p = Some p.
Proof.
  intros Hp. induction n as [|n IH]; [done|].
  change (henon_iter a b (S n) p) with (henon_iter a b n p ≫= henon_step a b).
  rewrite IH. exact Hp.
Qed.

(** X18: in exact arithmetic, for a <> 0 and a discriminant that is not
    negative, an iteration seeded at a point returned by
    [henon_fixed_points] never leaves it: the call returns, and every
    retained state is the seed. *)
Theorem iterate_henon_at_fixed_point (a b d : R) (p : R * R) (pts : list (R * R))
    (n_iter n_transient : nat) :
  a ≠ 0 → henon_discriminant (A:=exact) a b = Some d → 0 <= d →
  henon_fixed_points (A:=exact) a b = Some pts → p ∈ pts →
  iterate_henon (A:=exact) a b p.1 p.2 n_iter n_transient
  = Some (replicate (S n_iter) p.1, replicate (S n_iter) p.2).
Proof.
  intros Ha Hd HD Hpts Hp. rewrite henon_discriminant_exact in Hd.
  injection Hd as <-.
  rewrite henon_fixed_points_exact in Hpts by done. injection Hpts as <-.
  assert (Hfix : henon_map (A:=exact) p.1 p.2 a b = Some p).
  { apply elem_of_cons in Hp as [->|Hp]; [|apply list_elem_of_singleton in Hp as ->];
      cbn [fst snd]; apply henon_map_fixes_root;
      [by apply root_plus_is_root | by apply root_minus_is_root]. }
  rewrite iterate_henon_iter. destruct p as [x y]. cbn [fst snd] in *.
  rewrite (mapM_total _ (λ _, (x, y))).
  2:{ intros k _. by apply (henon_iter_fixed a b (x, y)). }
  cbn [mbind option_bind]. rewrite <- !list_fmap_compose.
  rewrite (const_fmap _ _ x), (const_fmap _ _ y), length_seq; [done| |].
  - by intros k j _.
  - by intros k j _.
Qed.

Lemma iterate_henon_at_fixed_point_witness :
  1 ≠ 0 ∧ henon_discriminant (A:=exact) 1 1 = Some ((1 - 1) ^ 2 + 4 * 1)
  ∧ 0 <= (1 - 1) ^ 2 + 4 * 1
  ∧ (∃ pts : list (R * R),
        henon_fixed_points (A:=exact) 1 1 = Some pts ∧ (1, 1) ∈ pts)
  ∧ iterate_henon (A:=exact) 1 1 1 1 2 3 = Some ([1; 1; 1], [1; 1; 1]).
Proof.
  assert (H1 : 1 ≠ 0) by lra.
  assert (Hd : henon_discriminant (A:=exact) 1 1 = Some ((1 - 1) ^ 2 + 4 * 1))
    by apply henon_discriminant_exact.
  assert (HD : 0 <= (1 - 1) ^ 2 + 4 * 1) by lra.
  pose proof (henon_fixed_points_exact 1 1 HD) as Hpts.
  assert (Hin : (1, 1) ∈ [(root_plus 1 1, 1 * root_plus 1 1);
                          (root_minus 1 1, 1 * root_minus 1 1)]).
  { unfold root_plus.
    replace ((1 - 1) ^ 2 + 4 * 1) with (2 * 2) by lra.
    rewrite sqrt_square by lra.
    replace ((- (1 - 1) + 2) / (2 * 1)) with 1 by lra.
    replace (1 * 1) with 1 by lra. left. }
  split; [done|]. split; [done|]. split; [done|]. split; [by eexists|].
  apply (iterate_henon_at_fixed_point 1 1 _ (1, 1) _ 2 3 H1 Hd HD Hpts Hin).
Defined.

End HenonFixedOrbit.

(** ** Detectors on arrays of any length *)

(** A loop whose body, at the indices that pass a test, appends a value
    that may fail to be read: the loop fails where a read fails, and
    otherwise appends the values in the order of the indices. *)
Lemma for_loop_collect_partial {X : Type} (body : list X → nat → option (list X))
    (test : nat → bool) (f : nat → option X) (idx : list nat) (acc : list X) :
  (∀ s i, i ∈ idx →
     body s i = if test i then x ← f i; Some (s ++ [x]) else Some s) →
  for_loop body idx acc = xs ← mapM f (List.filter test idx); Some (acc ++ xs).
Proof.
  revert acc. induction idx as [|i idx IH]; intros acc Hbody.
  - cbn. by rewrite app_nil_r.
  - cbn [for_loop List.filter]. rewrite Hbody by left.
    assert (Hrest : ∀ acc', for_loop body idx acc'
              = xs ← mapM f (List.filter test idx); Some (acc' ++ xs)).
    { intros acc'. apply IH. intros s j Hj. apply Hbody. by right. }
    destruct (test i).
    + cbn [mapM]. destruct (f i) as [x|]; [|done]. cbn [mbind option_bind].
      rewrite Hrest. destruct (mapM f (List.filter test idx)) as [xs|]; [|done].
      cbn. by rewrite <- (assoc_L (++)).
    + cbn [mbind option_bind]. apply Hrest.
Qed.

Section LorenzAnyLength.
Context {F : Type} {A : Arith F}.

Lemma poincare_body_read (xs ys zs : list F) (z_section : F)
    (s : list (F * F * F)) (i : nat) :
  i ∈ range 1 (length zs) →
  poincare_body xs ys zs z_section s i =
    if lorenz_crossing_at zs z_section i
    then c ← lorenz_read xs ys zs z_section i; Some (s ++ [c])
    else Some s.
Proof.
  intros Hi%elem_of_range. unfold poincare_body, lorenz_crossing_at, lorenz_read.
  rewrite !(lookup_in_range zs) by lia. cbn [mbind option_bind].
  destruct (_ && _); [|done].
  destruct (xs !! (i - 1)%nat); [|done]. cbn [mbind option_bind].
  destruct (xs !! i); [|done]. cbn [mbind option_bind].
  destruct (ys !! (i - 1)%nat); [|done]. cbn [mbind option_bind].
  by destruct (ys !! i).
Qed.

Lemma compute_poincare_crossings_mapM (xs ys zs : list F) (z_section : F) :
  compute_poincare_crossings xs ys zs z_section =
    mapM (lorenz_read xs ys zs z_section)
         (List.filter (lorenz_crossing_at zs z_section) (range 1 (length zs))).
Proof.
  unfold compute_poincare_crossings.
  rewrite (for_loop_collect_partial _ (lorenz_crossing_at zs z_section)
             (lorenz_read xs ys zs z_section)).
  - by destruct (mapM _ _).
  - intros s i Hi. by apply poincare_body_read.
Qed.

Lemma lorenz_read_None (xs ys zs : list F) (z_section : F) (i : nat) :
  lorenz_read xs ys zs z_section i = None ↔ (length xs ≤ i ∨ length ys ≤ i)%nat.
Proof.
  unfold lorenz_read. cbv zeta. split.
  - intros H.
    destruct (xs !! i) as [xi|] eqn:Hxi; [|left; by apply lookup_ge_None].
    destruct (ys !! i) as [yi|] eqn:Hyi; [|right; by apply lookup_ge_None].
    apply lookup_lt_Some in Hxi, Hyi.
    rewrite (lookup_in_range xs (i - 1)), (lookup_in_range ys (i - 1)) in H by lia.
    done.
  - intros [H|H].
    + apply lookup_ge_None in H. rewrite H. by destruct (xs !! (i - 1)%nat).
    + apply lookup_ge_None in H. rewrite H.
      destruct (xs !! (i - 1)%nat); [|done]. cbn. destruct (xs !! i); [|done]. cbn.
      by destruct (ys !! (i - 1)%nat).
Qed.

(** X19: [compute_poincare_crossings] fails with an IndexError exactly
    when some index [i] at which [zs] crosses the section from below lies
    beyond the end of [xs] or of [ys]; crossings are the only places
    where the two arrays are read. *)
Theorem compute_poincare_crossings_index_error (xs ys zs : list F) (z_section : F) :
  compute_poincare_crossings xs ys zs z_section = None
  ↔ ∃ i : nat,
      (1 ≤ i < length zs)%nat
      ∧ lorenz_crossing_at zs z_section i = true
      ∧ (length xs ≤ i ∨ length ys ≤ i)%nat.
Proof.
  rewrite compute_poincare_crossings_mapM, mapM_None, Exists_exists.
  split.
  - intros (i & [Hi Hc]%elem_of_filter_range & Hn%lorenz_read_None). eauto.
  - intros (i & Hi & Hc & Hn). exists i. split.
    + by apply elem_of_filter_range.
    + by apply lorenz_read_None.
Qed.

(** X20: whenever [compute_poincare_crossings] returns, whatever the
    lengths of the arrays, it returns one point per index at which [zs]
    crosses the section from below, at most len(zs) - 1 of them, and the
    third coordinate of every point is [z_section] itself. *)
Theorem compute_poincare_crossings_on_plane (xs ys zs : list F) (z_section : F)
    (crossings : list (F * F * F)) :
  compute_poincare_crossings xs ys zs z_section = Some crossings →
  length crossings
    = length (List.filter (lorenz_crossing_at zs z_section) (range 1 (length zs)))
  ∧ (length crossings ≤ length zs - 1)%nat
  ∧ Forall (λ c, c.2 = z_section) crossings.
Proof.
  rewrite compute_poincare_crossings_mapM. intros H%mapM_Some.
  pose proof (Forall2_length _ _ _ H) as Hlen. split; [done|]. split.
  - rewrite <- Hlen. etrans; [apply List.filter_length_le|].
    unfold range. by rewrite length_seq.
  - clear Hlen. induction H as [|i c idx cs Hc _ IH]; constructor; [|done].
    unfold lorenz_read in Hc. cbv zeta in Hc.
    destruct (xs !! (i - 1)%nat), (xs !! i), (ys !! (i - 1)%nat), (ys !! i);
      cbn in Hc; try done. by injection Hc as <-.
Qed.

End LorenzAnyLength.

Lemma compute_poincare_crossings_on_plane_witness :
  compute_poincare_crossings (A:=binary64)
    [1; 3]%float [2; 6]%float [0; 4]%float 1%float = Some [(1.5, 3, 1)%float]
  ∧ Forall (λ c : float * float * float, c.2 = 1%float) [(1.5, 3, 1)%float].
Proof.
  assert (H : compute_poincare_crossings (A:=binary64)
    [1; 3]%float [2; 6]%float [0; 4]%float 1%float = Some [(1.5, 3, 1)%float])
    by (vm_compute; reflexivity).
  split; [done|].
  apply (compute_poincare_crossings_on_plane (A:=binary64) _ _ _ _ _ H).
Defined.

(** ** Interpolated points, in exact arithmetic *)

Section InterpolationExact.
Local Open Scope R_scope.

(** An interpolation with a fraction in [0, 1] stays between the two
    values it interpolates. *)
Lemma lerp_between (t p q : R) :
  0 <= t <= 1 → Rmin p q <= lerp (A:=exact) t p q <= Rmax p q.
Proof.
  intros [H0 H1]. unfold lerp. exact_arith.
  unfold Rmin, Rmax. destruct (Rle_dec p q); split; nra.
Qed.

Lemma lorenz_cross_lerp (xs ys zs : list R) (z_section : R) (i : nat) :
  zs !!! (i - 1)%nat < z_section <= zs !!! i →
  let t := lorenz_t_frac (A:=exact) (zs !!! (i - 1)%nat) z_section (zs !!! i) in
  lorenz_cross (A:=exact) xs ys zs z_section i
  = (lerp (A:=exact) t (xs !!! (i - 1)%nat) (xs !!! i),
     lerp (A:=exact) t (ys !!! (i - 1)%nat) (ys !!! i),
     lerp (A:=exact) t (zs !!! (i - 1)%nat) (zs !!! i)).
Proof.
  intros Hz t. unfold lorenz_cross, lerp. fold t. do 2 f_equal.
  subst t. unfold lorenz_t_frac. exact_arith. field. lra.
Qed.

(** X21: in exact arithmetic, on sample arrays of one length, every
    point [compute_poincare_crossings] returns lies on the chord between
    two consecutive samples: it is the interpolation of samples [i - 1]
    and [i] in all three coordinates with one fraction t in (0, 1] (the
    third coordinate, stored as [z_section], is the interpolated one), so
    its abscissa and ordinate lie between those of the two samples. *)
Theorem poincare_crossings_on_chord (xs ys zs : list R) (z_section : R) :
  length xs = length zs → length ys = length zs →
  ∃ crossings : list (R * R * R),
    compute_poincare_crossings (A:=exact) xs ys zs z_section = Some crossings
    ∧ Forall (λ c : R * R * R, ∃ (i : nat) (t : R),
        (1 ≤ i < length zs)%nat ∧ 0 < t <= 1
        ∧ c = (lerp (A:=exact) t (xs !!! (i - 1)%nat) (xs !!! i),
               lerp (A:=exact) t (ys !!! (i - 1)%nat) (ys !!! i),
               lerp (A:=exact) t (zs !!! (i - 1)%nat) (zs !!! i))
        ∧ Rmin (xs !!! (i - 1)%nat) (xs !!! i) <= c.1.1
            <= Rmax (xs !!! (i - 1)%nat) (xs !!! i)
        ∧ Rmin (ys !!! (i - 1)%nat) (ys !!! i) <= c.1.2
            <= Rmax (ys !!! (i - 1)%nat) (ys !!! i)) crossings.
Proof.
  intros Hx Hy. eexists. split; [by apply compute_poincare_crossings_closed|].
  apply Forall_fmap, Forall_forall. intros i [Hi Hc]%elem_of_filter_range.
  unfold lorenz_crossing_at in Hc. exact_arith.
  apply andb_prop in Hc as [Hlo%R_ltb_true Hhi%R_leb_true].
  destruct (lorenz_t_frac_bounds _ _ _ (conj Hlo Hhi)) as [_ Ht].
  cbn [compose]. rewrite lorenz_cross_lerp by done. cbv zeta.
  eexists i, _. split; [done|]. split; [exact Ht|]. split; [done|].
  cbn [fst snd]. split; apply lerp_between; lra.
Qed.

Lemma poincare_crossings_on_chord_witness :
  ∃ crossings : list (R * R * R),
    compute_poincare_crossings (A:=exact) [1; 3] [2; 6] [0; 4] 1 = Some crossings
    ∧ Forall (λ c : R * R * R, ∃ (i : nat) (t : R),
        (1 ≤ i < 2)%nat ∧ 0 < t <= 1
        ∧ c = (lerp (A:=exact) t ([1; 3] !!! (i - 1)%nat) ([1; 3] !!! i),
               lerp (A:=exact) t ([2; 6] !!! (i - 1)%nat) ([2; 6] !!! i),
               lerp (A:=exact) t ([0; 4] !!! (i - 1)%nat) ([0; 4] !!! i))
        ∧ Rmin ([1; 3] !!! (i - 1)%nat) ([1; 3] !!! i) <= c.1.1
            <= Rmax ([1; 3] !!! (i - 1)%nat) ([1; 3] !!! i)
        ∧ Rmin ([2; 6] !!! (i - 1)%nat) ([2; 6] !!! i) <= c.1.2
            <= Rmax ([2; 6] !!! (i - 1)%nat) ([2; 6] !!! i)) crossings.
Proof. apply (poincare_crossings_on_chord [1; 3] [2; 6] [0; 4] 1 eq_refl eq_refl). Defined.

End InterpolationExact.

Section RosslerState.
Context {F : Type} {A : Arith F}.

(** The coordinate of the recorded state along the section axis is the
    interpolation of the two bracketing values of that axis. *)
Lemma section_coordinate_state (xs ys zs : list F) (section_axis : string)
    (section_value : F) (i : nat) :
  let values := rossler_values xs ys zs section_axis in
  section_coordinate section_axis (crossing_state xs ys zs values section_value i)
  = lerp (crossing_frac values section_value i) (values !!! (i - 1)%nat) (values !!! i).
Proof.
  unfold section_coordinate, rossler_values, crossing_state. cbv zeta.
  destruct (String.eqb section_axis "y"); [done|].
  by destruct (String.eqb section_axis "x").
Qed.

Lemma compute_rossler_poincare_closed (xs ys zs : list F) (section_axis : string)
    (section_value : F) (direction : string) :
  length xs = length ys → length ys = length zs →
  compute_rossler_poincare xs ys zs section_axis section_value direction =
    Some (crossing_state xs ys zs (rossler_values xs ys zs section_axis) section_value
            <$> List.filter
                  (crossing_registered direction
                     (rossler_values xs ys zs section_axis) section_value)
                  (range 1 (length (rossler_values xs ys zs section_axis)))).
Proof.
  intros Hxy Hyz. unfold compute_rossler_poincare. cbv zeta.
  pose proof (rossler_values_length xs ys zs section_axis Hxy Hyz) as Hv.
  rewrite (for_loop_collect _
             (crossing_registered direction
                (rossler_values xs ys zs section_axis) section_value)
             (crossing_state xs ys zs (rossler_values xs ys zs section_axis)
                section_value)); [done|].
  intros s i Hi. apply rossler_body_in_range; congruence.
Qed.

End RosslerState.

Section RosslerExact.
Local Open Scope R_scope.

(** The threshold of the guards on a denominator. *)
Lemma lit_guard_exact : lit (Arith:=exact) 1e-10 = 1e-10.
Proof.
  cbn [lit exact]. unfold Q2R.
  let n := eval vm_compute in (Qnum 1e-10) in change (Qnum 1e-10) with n.
  let d := eval vm_compute in (QDen 1e-10) in change (QDen 1e-10) with d.
  lra.
Qed.

Lemma crossing_registered_exact (direction : string) (values : list R)
    (section_value : R) (i : nat) :
  crossing_registered (A:=exact) direction values section_value i = true →
  values !!! (i - 1)%nat < section_value <= values !!! i
  ∨ values !!! i <= section_value < values !!! (i - 1)%nat.
Proof.
  unfold crossing_registered. cbv zeta. exact_arith.
  destruct (bool_decide _); intros [H1 H2]%andb_prop.
  - left. apply R_ltb_true in H1. apply R_leb_true in H2. lra.
  - right. apply R_ltb_true in H1. apply R_leb_true in H2. lra.
Qed.

(** At a registered crossing the fraction lies in (0, 1], in either
    direction and also when the guard replaces it by 0.5. *)
Lemma crossing_frac_bounds (direction : string) (values : list R)
    (section_value : R) (i : nat) :
  crossing_registered (A:=exact) direction values section_value i = true →
  0 < crossing_frac (A:=exact) values section_value i <= 1.
Proof.
  intros Hc%crossing_registered_exact. unfold crossing_frac. cbv zeta. exact_arith.
  destruct (R_ltb _ _); [|lra].
  set (p := values !!! (i - 1)%nat) in *. set (q := values !!! i) in *.
  destruct Hc as [Hc|Hc].
  - assert (Hd : 0 < q - p) by lra. split.
    + apply Rdiv_lt_0_compat; lra.
    + apply (Rmult_le_reg_r (q - p)); [done|].
      unfold Rdiv. rewrite Rmult_assoc, Rinv_l; lra.
  - assert (Hd : 0 < p - q) by lra.
    replace ((section_value - p) / (q - p)) with ((p - section_value) / (p - q))
      by (field; lra).
    split.
    + apply Rdiv_lt_0_compat; lra.
    + apply (Rmult_le_reg_r (p - q)); [done|].
      unfold Rdiv. rewrite Rmult_assoc, Rinv_l; lra.
Qed.

Lemma crossing_frac_on_section (direction : string) (values : list R)
    (section_value : R) (i : nat) :
  crossing_registered (A:=exact) direction values section_value i = true →
  let v := lerp (A:=exact) (crossing_frac (A:=exact) values section_value i)
             (values !!! (i - 1)%nat) (values !!! i) in
  Rabs (v - section_value) <= 5e-11
  ∧ (Rabs (values !!! i - values !!! (i - 1)%nat) > 1e-10 → v = section_value).
Proof.
  intros Hc%crossing_registered_exact v. subst v.
  unfold crossing_frac, lerp. cbv zeta. rewrite lit_guard_exact. exact_arith.
  set (p := values !!! (i - 1)%nat) in *. set (q := values !!! i) in *.
  R_case_ltb 1e-10 (Rabs (q - p)).
  - assert (Heq : p + (section_value - p) / (q - p) * (q - p) = section_value)
      by (field; lra).
    rewrite Heq. split; [|done].
    replace (section_value - section_value) with 0 by lra. rewrite Rabs_R0. lra.
  - split.
    + revert Hlt. unfold Rabs.
      destruct (Rcase_abs (q - p)), (Rcase_abs _); lra.
    + lra.
Qed.

(** X22: in exact arithmetic, on sample arrays of one length, every
    state [compute_rossler_poincare] records lies within 5e-11 of the
    section plane along the section axis; where the guard on the
    denominator passes at every pair of consecutive samples, every
    recorded state lies on the plane exactly. *)
Theorem rossler_crossings_on_section (xs ys zs : list R) (section_axis : string)
    (section_value : R) (direction : string) :
  length xs = length ys → length ys = length zs →
  let values := rossler_values xs ys zs section_axis in
  ∃ crossings : list (R * R * R),
    compute_rossler_poincare (A:=exact) xs ys zs section_axis section_value direction
      = Some crossings
    ∧ Forall (λ c : R * R * R,
        Rabs (section_coordinate section_axis c - section_value) <= 5e-11)
        crossings
    ∧ ((∀ i : nat, (1 ≤ i < length values)%nat →
          Rabs (values !!! i - values !!! (i - 1)%nat) > 1e-10) →
       Forall (λ c : R * R * R, section_coordinate section_axis c = section_value)
         crossings).
Proof.
  intros Hxy Hyz values. eexists.
  split; [by apply compute_rossler_poincare_closed|].
  split.
  - apply Forall_fmap, Forall_forall. intros i [Hi Hc]%elem_of_filter_range.
    cbn [compose]. subst values. rewrite section_coordinate_state.
    by apply (crossing_frac_on_section direction).
  - intros Hguard.
    apply Forall_fmap, Forall_forall. intros i [Hi Hc]%elem_of_filter_range.
    cbn [compose]. subst values. rewrite section_coordinate_state.
    apply (crossing_frac_on_section direction); [done|]. by apply Hguard.
Qed.

Lemma rossler_crossings_on_section_witness :
  ∃ crossings : list (R * R * R),
    compute_rossler_poincare (A:=exact) [1; 2; 3] [-1; 1; -1] [5; 6; 7] "y" 0 "negative"
      = Some crossings
    ∧ Forall (λ c : R * R * R,
        Rabs (section_coordinate "y" c - 0) <= 5e-11) crossings.
Proof.
  destruct (rossler_crossings_on_section [1; 2; 3] [-1; 1; -1] [5; 6; 7] "y" 0 "negative"
              eq_refl eq_refl) as (crossings & H & Hall & _).
  by exists crossings.
Defined.

(** X23: in exact arithmetic, on sample arrays of one length, every
    state [compute_rossler_poincare] records lies, coordinate by
    coordinate, between two consecutive samples, for either direction and
    also where the fraction is replaced by 0.5. *)
Theorem rossler_crossings_between (xs ys zs : list R) (section_axis : string)
    (section_value : R) (direction : string) :
  length xs = length ys → length ys = length zs →
  ∃ crossings : list (R * R * R),
    compute_rossler_poincare (A:=exact) xs ys zs section_axis section_value direction
      = Some crossings
    ∧ Forall (λ c : R * R * R, ∃ i : nat,
        (1 ≤ i < length xs)%nat
        ∧ Rmin (xs !!! (i - 1)%nat) (xs !!! i) <= c.1.1
            <= Rmax (xs !!! (i - 1)%nat) (xs !!! i)
        ∧ Rmin (ys !!! (i - 1)%nat) (ys !!! i) <= c.1.2
            <= Rmax (ys !!! (i - 1)%nat) (ys !!! i)
        ∧ Rmin (zs !!! (i - 1)%nat) (zs !!! i) <= c.2
            <= Rmax (zs !!! (i - 1)%nat) (zs !!! i)) crossings.
Proof.
  intros Hxy Hyz. eexists.
  split; [by apply compute_rossler_poincare_closed|].
  apply Forall_fmap, Forall_forall. intros i [Hi Hc]%elem_of_filter_range.
  rewrite rossler_values_length in Hi by done.
  apply crossing_frac_bounds in Hc.
  exists i. split; [done|]. cbn [compose crossing_state fst snd].
  repeat split; apply lerp_between; lra.
Qed.

Lemma rossler_crossings_between_witness :
  ∃ crossings : list (R * R * R),
    compute_rossler_poincare (A:=exact) [1; 2; 3] [-1; 1; -1] [5; 6; 7] "y" 0 "positive"
      = Some crossings
    ∧ Forall (λ c : R * R * R, ∃ i : nat,
        (1 ≤ i < 3)%nat
        ∧ Rmin ([1; 2; 3] !!! (i - 1)%nat) ([1; 2; 3] !!! i) <= c.1.1
            <= Rmax ([1; 2; 3] !!! (i - 1)%nat) ([1; 2; 3] !!! i)
        ∧ Rmin ([-1; 1; -1] !!! (i - 1)%nat) ([-1; 1; -1] !!! i) <= c.1.2
            <= Rmax ([-1; 1; -1] !!! (i - 1)%nat) ([-1; 1; -1] !!! i)
        ∧ Rmin ([5; 6; 7] !!! (i - 1)%nat) ([5; 6; 7] !!! i) <= c.2
            <= Rmax ([5; 6; 7] !!! (i - 1)%nat) ([5; 6; 7] !!! i)) crossings.
Proof.
  apply (rossler_crossings_between [1; 2; 3] [-1; 1; -1] [5; 6; 7] "y" 0 "positive"
           eq_refl eq_refl).
Defined.

End RosslerExact.

Section VanDerPolExact.
Local Open Scope R_scope.

Lemma vdp_primary_exact (ys : list R) (i : nat) :
  vdp_primary (A:=exact) ys i = true ↔ ys !!! (i - 1)%nat < 0 <= ys !!! i.
Proof.
  unfold vdp_primary. rewrite andb_true_iff. exact_arith.
  rewrite R_ltb_true, R_leb_true. lra.
Qed.

Lemma vdp_x_cross_between (xs ys : list R) (i : nat) :
  ys !!! (i - 1)%nat < 0 <= ys !!! i →
  Rmin (xs !!! (i - 1)%nat) (xs !!! i) <= vdp_x_cross (A:=exact) xs ys i
    <= Rmax (xs !!! (i - 1)%nat) (xs !!! i)
  ∧ (0 <= xs !!! (i - 1)%nat → 0 < xs !!! i → 0 < vdp_x_cross (A:=exact) xs ys i).
Proof.
  intros Hy. unfold vdp_x_cross, vdp_t_frac.
  set (p := xs !!! (i - 1)%nat). set (q := xs !!! i).
  set (y0 := ys !!! (i - 1)%nat) in *. set (y1 := ys !!! i) in *.
  destruct (flt _ _).
  - assert (Ht : 0 < fdiv (fneg y0) (fsub y1 y0) <= 1).
    { exact_arith. assert (Hd : 0 < y1 - y0) by lra. split.
      - apply Rdiv_lt_0_compat; lra.
      - apply (Rmult_le_reg_r (y1 - y0)); [done|].
        unfold Rdiv. rewrite Rmult_assoc, Rinv_l; lra. }
    revert Ht. generalize (fdiv (fneg y0) (fsub y1 y0)). intros t Ht. split.
    + apply (lerp_between t p q). lra.
    + exact_arith. intros Hp Hq.
      assert (0 <= (1 - t) * p) by (apply Rmult_le_pos; lra).
      assert (0 < t * q) by (apply Rmult_lt_0_compat; lra).
      lra.
  - split; [|done]. unfold Rmin, Rmax. destruct (Rle_dec p q); lra.
Qed.

(** X24: in exact arithmetic, on sample arrays of one length, every
    value the Van der Pol loop records belongs to an index [i] with
    [ys[i-1] < 0 <= ys[i]] and [xs[i] > 0], lies between [xs[i-1]] and
    [xs[i]], and is positive whenever [xs[i-1]] is not negative. *)
Theorem vdp_crossings_between (xs ys : list R) :
  length xs = length ys →
  ∃ crossings : list R,
    vdp_crossings (A:=exact) xs ys = Some crossings
    ∧ Forall (λ c : R, ∃ i : nat,
        (1 ≤ i < length ys)%nat
        ∧ ys !!! (i - 1)%nat < 0 <= ys !!! i ∧ 0 < xs !!! i
        ∧ Rmin (xs !!! (i - 1)%nat) (xs !!! i) <= c
            <= Rmax (xs !!! (i - 1)%nat) (xs !!! i)
        ∧ (0 <= xs !!! (i - 1)%nat → 0 < c)) crossings.
Proof.
  intros Hlen. eexists. split; [by apply vdp_crossings_closed|].
  apply Forall_fmap, Forall_forall. intros i [Hi Hc]%elem_of_filter_range.
  apply andb_prop in Hc as [Hy%vdp_primary_exact Hx]. exact_arith.
  apply R_ltb_true in Hx.
  destruct (vdp_x_cross_between xs ys i Hy) as [Hb Hpos].
  exists i. cbn [compose]. split; [done|]. split; [done|]. split; [lra|].
  split; [done|]. intros Hp. apply Hpos; lra.
Qed.

Lemma vdp_crossings_between_witness :
  ∃ crossings : list R,
    vdp_crossings (A:=exact) [-3; 1] [-1; 1] = Some crossings
    ∧ Forall (λ c : R, ∃ i : nat,
        (1 ≤ i < 2)%nat
        ∧ [-1; 1] !!! (i - 1)%nat < 0 <= [-1; 1] !!! i ∧ 0 < [-3; 1] !!! i
        ∧ Rmin ([-3; 1] !!! (i - 1)%nat) ([-3; 1] !!! i) <= c
            <= Rmax ([-3; 1] !!! (i - 1)%nat) ([-3; 1] !!! i)
        ∧ (0 <= [-3; 1] !!! (i - 1)%nat → 0 < c)) crossings.
Proof. apply (vdp_crossings_between [-3; 1] [-1; 1] eq_refl). Defined.

End VanDerPolExact.

(** ** Index errors on arrays of any length *)

(** A loop fails exactly when its body fails at some index, if whether
    the body fails does not depend on the list built so far. *)
Lemma for_loop_None {X : Type} (body : X → nat → option X) (bad : nat → Prop)
    (idx : list nat) (s : X) :
  (∀ s i, i ∈ idx → body s i = None ↔ bad i) →
  for_loop body idx s = None ↔ ∃ i : nat, i ∈ idx ∧ bad i.
Proof.
  revert s. induction idx as [|i idx IH]; intros s Hbody.
  - cbn. split; [done|]. intros (i & Hi & _). by apply elem_of_nil in Hi.
  - cbn [for_loop]. destruct (body s i) as [s'|] eqn:Hb; cbn [mbind option_bind].
    + rewrite IH by (intros s0 j Hj; apply Hbody; by right). split.
      * intros (j & Hj & Hbad). exists j. split; [by right|done].
      * intros (j & Hj & Hbad). apply elem_of_cons in Hj as [->|Hj]; [|by eauto].
        apply (Hbody s) in Hbad; [congruence|by left].
    + split; [|done]. intros _. exists i. split; [by left|].
      apply (Hbody s); [by left|done].
Qed.

Section IndexErrors.
Context {F : Type} {A : Arith F}.
Local Open Scope py_scope.

Lemma vdp_body_None (xs ys s : list F) (i : nat) :
  i ∈ range 1 (length ys) →
  vdp_body xs ys s i = None ↔ vdp_primary ys i = true ∧ (length xs ≤ i)%nat.
Proof.
  intros Hi%elem_of_range. unfold vdp_body, vdp_primary.
  rewrite !(lookup_in_range ys) by lia. cbn [mbind option_bind].
  destruct (_ && _); [|by split; [|intros []]].
  destruct (xs !! i) as [x_i|] eqn:Hx; cbn [mbind option_bind].
  - apply lookup_lt_Some in Hx.
    rewrite (lookup_in_range xs (i - 1)) by lia. cbn [mbind option_bind].
    split; [|intros [_ ?]; lia].
    destruct (x_i >? lit 0); [|done]. by destruct (fabs _ >? lit 1e-10).
  - apply lookup_ge_None in Hx. done.
Qed.

(** X25: [compute_vdp_poincare_map], from the samples on, fails with an
    IndexError exactly when [ys] crosses zero upward at an index that
    lies beyond the end of [xs]; the comprehension that builds the return
    map never fails. *)
Theorem compute_vdp_poincare_map_index_error (xs ys : list F) :
  compute_vdp_poincare_map xs ys = None
  ↔ ∃ i : nat,
      (1 ≤ i < length ys)%nat ∧ vdp_primary ys i = true ∧ (length xs ≤ i)%nat.
Proof.
  unfold compute_vdp_poincare_map.
  transitivity (vdp_crossings xs ys = None).
  - destruct (vdp_crossings xs ys) as [crossings|]; [|done]. cbn [mbind option_bind].
    by rewrite return_map_closed.
  - unfold vdp_crossings.
    rewrite (for_loop_None _ (λ i, vdp_primary ys i = true ∧ (length xs ≤ i)%nat))
      by (intros s i Hi; by apply vdp_body_None).
    by setoid_rewrite elem_of_range.
Qed.

Lemma rossler_body_None (xs ys zs values : list F) (section_value : F)
    (direction : string) (s : list (F * F * F)) (i : nat) :
  i ∈ range 1 (length values) →
  rossler_body xs ys zs values section_value direction s i = None
  ↔ crossing_registered direction values section_value i = true
    ∧ (length xs ≤ i ∨ length ys ≤ i ∨ length zs ≤ i)%nat.
Proof.
  intros Hi%elem_of_range. unfold rossler_body.
  rewrite !(lookup_in_range values) by lia. cbn [mbind option_bind]. cbv zeta.
  rewrite rossler_crossing_registered.
  destruct (crossing_registered _ _ _ _); [|by split; [|intros []]].
  destruct (xs !! i) as [x_i|] eqn:Hx.
  2:{ apply lookup_ge_None in Hx. split; [eauto|].
      intros _. by destruct (xs !! (i - 1)%nat). }
  apply lookup_lt_Some in Hx.
  rewrite (lookup_in_range xs (i - 1)) by lia. cbn [mbind option_bind].
  destruct (ys !! i) as [y_i|] eqn:Hy.
  2:{ apply lookup_ge_None in Hy. split; [eauto|].
      intros _. by destruct (ys !! (i - 1)%nat). }
  apply lookup_lt_Some in Hy.
  rewrite (lookup_in_range ys (i - 1)) by lia. cbn [mbind option_bind].
  destruct (zs !! i) as [z_i|] eqn:Hz.
  2:{ apply lookup_ge_None in Hz. split; [eauto|].
      intros _. by destruct (zs !! (i - 1)%nat). }
  apply lookup_lt_Some in Hz.
  rewrite (lookup_in_range zs (i - 1)) by lia. cbn [mbind option_bind].
  split; [done|]. intros [_ ?]. lia.
Qed.

(** X26: [compute_rossler_poincare] fails with an IndexError exactly
    when the chosen coordinate registers a crossing at an index that lies
    beyond the end of one of the three arrays. *)
Theorem compute_rossler_poincare_index_error (xs ys zs : list F)
    (section_axis : string) (section_value : F) (direction : string) :
  compute_rossler_poincare xs ys zs section_axis section_value direction = None
  ↔ ∃ i : nat,
      (1 ≤ i < length (rossler_values xs ys zs section_axis))%nat
      ∧ crossing_registered direction
          (rossler_values xs ys zs section_axis) section_value i = true
      ∧ (length xs ≤ i ∨ length ys ≤ i ∨ length zs ≤ i)%nat.
Proof.
  unfold compute_rossler_poincare. cbv zeta.
  set (values := rossler_values xs ys zs section_axis).
  rewrite (for_loop_None _
             (λ i, crossing_registered direction values section_value i = true
                   ∧ (length xs ≤ i ∨ length ys ≤ i ∨ length zs ≤ i)%nat))
    by (intros s i Hi; by apply rossler_body_None).
  by setoid_rewrite elem_of_range.
Qed.

End IndexErrors.

(** ** The wing-switch counter *)

Section WingSwitches.
Context {F : Type} {A : Arith F}.

Lemma count_switches_step (prev n : Z) (x : F) :
  count_switches (prev, n) x
  = (current_sign x, (n + (if (current_sign x =? prev)%Z then 0 else 1))%Z).
Proof.
  unfold count_switches, current_sign.
  destruct (_ =? prev)%Z eqn:Heq; cbn [negb]; [|done].
  apply Z.eqb_eq in Heq. rewrite Heq. f_equal. lia.
Qed.

Lemma count_switches_foldl (frames : list F) (prev n : Z) :
  foldl count_switches (prev, n) frames
  = (default prev (last (current_sign <$> frames)),
     (n + sign_changes prev (current_sign <$> frames))%Z).
Proof.
  revert prev n. induction frames as [|x frames IH]; intros prev n.
  - cbn. f_equal. lia.
  - cbn [foldl fmap list_fmap sign_changes]. rewrite count_switches_step, IH.
    f_equal; [|lia]. rewrite last_cons. by destruct (last _).
Qed.

Lemma current_sign_cases (x : F) : current_sign x = 1%Z ∨ current_sign x = (-1)%Z.
Proof. unfold current_sign. destruct (flt _ _); auto. Qed.

Lemma sign_changes_bounds (prev : Z) (signs : list Z) :
  (0 ≤ sign_changes prev signs ≤ Z.of_nat (length signs))%Z.
Proof.
  revert prev. induction signs as [|s signs IH]; intros prev; [cbn; lia|].
  cbn [sign_changes length]. specialize (IH s). destruct (s =? prev)%Z; lia.
Qed.

(** Between two signs, the last one equals the first exactly when the
    sign has changed an even number of times. *)
Lemma sign_changes_parity (prev : Z) (frames : list F) :
  prev = 1%Z ∨ prev = (-1)%Z →
  default prev (last (current_sign <$> frames)) = prev
  ↔ Z.even (sign_changes prev (current_sign <$> frames)) = true.
Proof.
  revert prev. induction frames as [|x frames IH]; intros prev Hprev; [done|].
  cbn [fmap list_fmap sign_changes].
  assert (Hlast : default prev (last (current_sign x :: (current_sign <$> frames)))
            = default (current_sign x) (last (current_sign <$> frames))).
  { rewrite last_cons. by destruct (last _). }
  rewrite Hlast. specialize (IH (current_sign x) (current_sign_cases x)).
  destruct (current_sign x =? prev)%Z eqn:Heq.
  - apply Z.eqb_eq in Heq. rewrite <- Heq. by rewrite Z.add_0_l.
  - apply Z.eqb_neq in Heq.
    replace (1 + sign_changes (current_sign x) (current_sign <$> frames))%Z
      with (Z.succ (sign_changes (current_sign x) (current_sign <$> frames))) by lia.
    rewrite Z.even_succ, <- Z.negb_even.
    assert (Hend : default (current_sign x) (last (current_sign <$> frames)) = 1%Z
                   ∨ default (current_sign x) (last (current_sign <$> frames)) = (-1)%Z).
    { destruct (last (current_sign <$> frames)) as [s|] eqn:Hs; cbn.
      - apply last_Some_elem_of, list_elem_of_fmap in Hs as (y & -> & _).
        apply current_sign_cases.
      - apply current_sign_cases. }
    destruct (Z.even _) eqn:Hev; cbn [negb].
    + split; [|done]. intros Hp. apply proj2 in IH. specialize (IH eq_refl). congruence.
    + split; [done|]. intros _.
      destruct (current_sign_cases x), Hprev, Hend; lia.
Qed.

(** X27: over the frames of one animation [count_switches] ends with
    the sign of the last abscissa and with the number of frames whose
    sign differs from the sign before, the sign before the first frame
    being +1 (a trajectory that starts at x <= 0 counts one switch at
    once); the counter is at most the number of frames, and it is even
    exactly when the last sign is +1. *)
Theorem count_switches_run_sign_changes (frames : list F) :
  count_switches_run frames
  = (default 1%Z (last (current_sign <$> frames)),
     sign_changes 1 (current_sign <$> frames))
  ∧ (0 ≤ (count_switches_run frames).2 ≤ Z.of_nat (length frames))%Z
  ∧ ((count_switches_run frames).1 = 1%Z
     ↔ Z.even (count_switches_run frames).2 = true).
Proof.
  unfold count_switches_run. rewrite count_switches_foldl.
  rewrite Z.add_0_l. cbn [fst snd]. split; [done|]. split.
  - pose proof (sign_changes_bounds 1 (current_sign <$> frames)) as H.
    by rewrite length_fmap in H.
  - apply sign_changes_parity. by left.
Qed.

End WingSwitches.

(** ** No two crossings at consecutive indices *)

(** A test that never holds at two consecutive indices holds at no more
    than half of the indices of a range, rounded up. *)
Lemma filter_not_adjacent_length (test : nat → bool) (lo n : nat) :
  (∀ i, test i = true → test (S i) = false) →
  (2 * length (List.filter test (seq lo n)) ≤ n + 1)%nat.
Proof.
  intros Hadj. revert lo. induction n as [n IH] using lt_wf_ind. intros lo.
  destruct n as [|[|n]].
  - cbn. lia.
  - cbn. destruct (test lo); cbn; lia.
  - change (seq lo (S (S n))) with (lo :: seq (S lo) (S n)).
    cbn [List.filter]. destruct (test lo) eqn:Hlo.
    + change (seq (S lo) (S n)) with (S lo :: seq (S (S lo)) n).
      cbn [List.filter]. rewrite (Hadj _ Hlo). cbn [length].
      specialize (IH n ltac:(lia) (S (S lo))). lia.
    + specialize (IH (S n) ltac:(lia) (S lo)). lia.
Qed.

Lemma filter_range_not_adjacent (test : nat → bool) (n : nat) :
  (∀ i, test i = true → test (S i) = false) →
  (2 * length (List.filter test (range 1 n)) ≤ n)%nat.
Proof.
  intros Hadj. unfold range. destruct n as [|n]; [cbn; lia|].
  pose proof (filter_not_adjacent_length test 1 (S n - 1) Hadj). lia.
Qed.

Section NotAdjacent.
Local Open Scope R_scope.

Lemma lorenz_crossing_at_not_adjacent (zs : list R) (z_section : R) (i : nat) :
  lorenz_crossing_at (A:=exact) zs z_section i = true →
  lorenz_crossing_at (A:=exact) zs z_section (S i) = false.
Proof.
  unfold lorenz_crossing_at. replace (S i - 1)%nat with i by lia. exact_arith.
  intros [_ H%R_leb_true]%andb_prop.
  apply andb_false_intro1, R_ltb_false. lra.
Qed.

Lemma crossing_registered_not_adjacent (direction : string) (values : list R)
    (section_value : R) (i : nat) :
  crossing_registered (A:=exact) direction values section_value i = true →
  crossing_registered (A:=exact) direction values section_value (S i) = false.
Proof.
  unfold crossing_registered. cbv zeta. replace (S i - 1)%nat with i by lia.
  exact_arith. destruct (bool_decide _).
  - intros [_ H%R_leb_true]%andb_prop. apply andb_false_intro1, R_ltb_false. lra.
  - intros [_ H%R_leb_true]%andb_prop. apply andb_false_intro1, R_ltb_false. lra.
Qed.

Lemma vdp_primary_not_adjacent (ys : list R) (i : nat) :
  vdp_primary (A:=exact) ys i = true → vdp_primary (A:=exact) ys (S i) = false.
Proof.
  intros H%vdp_primary_exact. apply not_true_is_false.
  intros H'%vdp_primary_exact. replace (S i - 1)%nat with i in H' by lia. lra.
Qed.

(** X28: in exact arithmetic no detector registers crossings at two
    consecutive indices, so on n samples (arrays of one length) each of
    them returns at most n / 2 crossings; the return map of the Van der
    Pol crossings has one pair less than there are crossings. *)
Theorem crossings_not_adjacent (xs ys zs : list R) :
  length xs = length ys → length ys = length zs →
  (∀ z_section : R, ∃ crossings : list (R * R * R),
      compute_poincare_crossings (A:=exact) xs ys zs z_section = Some crossings
      ∧ (2 * length crossings ≤ length zs)%nat)
  ∧ (∀ (section_axis : string) (section_value : R) (direction : string),
      ∃ crossings : list (R * R * R),
        compute_rossler_poincare (A:=exact) xs ys zs section_axis section_value direction
          = Some crossings
        ∧ (2 * length crossings ≤ length zs)%nat)
  ∧ (∃ (crossings : list R) (pairs : list (R * R)),
      compute_vdp_poincare_map (A:=exact) xs ys = Some (crossings, pairs)
      ∧ (2 * length crossings ≤ length ys)%nat
      ∧ length pairs = (length crossings - 1)%nat).
Proof.
  intros Hxy Hyz. split; [|split].
  - intros z_section. eexists.
    split; [apply compute_poincare_crossings_closed; congruence|].
    rewrite length_fmap. apply filter_range_not_adjacent.
    apply lorenz_crossing_at_not_adjacent.
  - intros section_axis section_value direction. eexists.
    split; [by apply compute_rossler_poincare_closed|].
    rewrite length_fmap, rossler_values_length by done. rewrite Hxy, Hyz.
    apply filter_range_not_adjacent. apply crossing_registered_not_adjacent.
  - unfold compute_vdp_poincare_map.
    rewrite (vdp_crossings_closed xs ys Hxy). cbn [mbind option_bind].
    rewrite return_map_closed. cbn [mbind option_bind].
    do 2 eexists. split; [reflexivity|]. split.
    + rewrite length_fmap. apply filter_range_not_adjacent.
      intros i [Hp _]%andb_prop. apply andb_false_intro1.
      by apply vdp_primary_not_adjacent.
    + by rewrite length_fmap, length_seq.
Qed.

Lemma crossings_not_adjacent_witness :
  ∃ crossings : list (R * R * R),
    compute_poincare_crossings (A:=exact) [1; 3] [2; 6] [0; 4] 1 = Some crossings
    ∧ (2 * length crossings ≤ 2)%nat.
Proof.
  apply (proj1 (crossings_not_adjacent [1; 3] [2; 6] [0; 4] eq_refl eq_refl) 1).
Defined.

End NotAdjacent.
